(** * TextProcessor: the message session manager of [src/TextProcessor.jsx]

    A shallow embedding of the React component's state and of its three event
    handlers ([handleSend], [handleSummarize], [handleTranslate]) with the two
    helpers they call ([summarizeText], [translateText]), followed by the
    properties of the handlers and of the states the rendered controls can
    reach. *)

From Stdlib Require Import ZArith NArith List String Ascii Bool Lia DecimalString.
From stdpp Require Import base option list gmap.

Local Open Scope Z_scope.
Set Warnings "-register-all".

(** ** JavaScript strings

    A JavaScript string is a sequence of UTF-16 code units; [length], [trim]
    and [encodeURIComponent] are all defined on code units. *)

Abbreviation jsstring := (list N).

(** An ASCII literal of the source, as code units. *)
Definition js (s : string) : jsstring :=
  List.map N_of_ascii (list_ascii_of_string s).

(** [WhiteSpace] and [LineTerminator] of ECMAScript: what [trim] strips. *)
Definition is_white_space (c : N) : bool :=
  ((9 <=? c) && (c <=? 13) || (c =? 32) || (c =? 160) || (c =? 5760)
   || (8192 <=? c) && (c <=? 8202) || (c =? 8232) || (c =? 8233)
   || (c =? 8239) || (c =? 8287) || (c =? 12288) || (c =? 65279))%N.

Fixpoint trimStart (s : jsstring) : jsstring :=
  match s with
  | c :: rest => if is_white_space c then trimStart rest else s
  | [] => []
  end.

Definition trimEnd (s : jsstring) : jsstring := rev (trimStart (rev s)).

Definition trim (s : jsstring) : jsstring := trimEnd (trimStart s).

(** Truthiness of a string: only the empty string is falsy. *)
Definition truthy_string (s : jsstring) : bool :=
  match s with [] => false | _ => true end.

(** ** Exceptions

    Every value the code throws or catches is an [Error] object; the handlers
    only ever read its [message]. *)

Record exn := Error { message : jsstring }.

(** Errors raised by the engine rather than by a [throw] of the source: their
    message text is the engine's. *)
Inductive fault :=
| read_of_undefined (property : jsstring)   (* TypeError: [undefined.property] *)
| read_of_null (property : jsstring)        (* TypeError: [null.property] *)
| malformed_uri.                            (* URIError of [encodeURIComponent] *)

(** ** encodeURIComponent *)

Definition is_unreserved (c : N) : bool :=
  ((65 <=? c) && (c <=? 90) || (97 <=? c) && (c <=? 122)
   || (48 <=? c) && (c <=? 57)
   || (c =? 45) || (c =? 95) || (c =? 46) || (c =? 33) || (c =? 126)
   || (c =? 42) || (c =? 39) || (c =? 40) || (c =? 41))%N.

Definition is_leading_surrogate (c : N) : bool := ((55296 <=? c) && (c <=? 56319))%N.
Definition is_trailing_surrogate (c : N) : bool := ((56320 <=? c) && (c <=? 57343))%N.

Definition utf8 (cp : N) : list N :=
  (if cp <? 128 then [cp]
   else if cp <? 2048 then [192 + cp / 64; 128 + cp mod 64]
   else if cp <? 65536 then
     [224 + cp / 4096; 128 + (cp / 64) mod 64; 128 + cp mod 64]
   else
     [240 + cp / 262144; 128 + (cp / 4096) mod 64;
      128 + (cp / 64) mod 64; 128 + cp mod 64])%N.

Definition hex_digit (d : N) : N := (if d <? 10 then 48 + d else 55 + d)%N.

Definition percent_encode (octets : list N) : jsstring :=
  flat_map (fun o => [37%N; hex_digit (o / 16); hex_digit (o mod 16)]) octets.

Fixpoint encodeURIComponent (s : jsstring) : option jsstring :=
  match s with
  | [] => Some []
  | c :: rest =>
      if is_unreserved c then cons c <$> encodeURIComponent rest
      else if is_leading_surrogate c then
        match rest with
        | d :: rest' =>
            if is_trailing_surrogate d then
              let cp := ((c - 55296) * 1024 + (d - 56320) + 65536)%N in
              app (percent_encode (utf8 cp)) <$> encodeURIComponent rest'
            else None
        | [] => None
        end
      else if is_trailing_surrogate c then None
      else app (percent_encode (utf8 c)) <$> encodeURIComponent rest
  end.

(** ** Values of a parsed JSON body

    Numbers are taken in [Z]: the code only tests a number for truthiness. *)

Inductive json :=
| JNull
| JBool (b : bool)
| JNum (n : Z)
| JStr (s : jsstring)
| JArr (items : list json)
| JObj (members : list (jsstring * json)).

Definition truthy (v : json) : bool :=
  match v with
  | JNull => false
  | JBool b => b
  | JNum n => negb (n =? 0)
  | JStr s => truthy_string s
  | JArr _ | JObj _ => true
  end.

(** The member of an object as [JSON.parse] leaves it: of two members with
    one name, the later one. *)
Fixpoint member (key : jsstring) (members : list (jsstring * json)) : option json :=
  match members with
  | [] => None
  | (k, v) :: rest =>
      match member key rest with
      | Some v' => Some v'
      | None => if bool_decide (k = key) then Some v else None
      end
  end.

(** [data.translation] of a parsed body other than [null]: the member of an
    object, and [undefined] ([None]) on a boolean, a number, a string or an
    array, none of which has or inherits a property of that name. *)
Definition translation_of (data : json) : option json :=
  match data with
  | JObj members => member (js "translation") members
  | _ => None
  end.

(** The body has no [translation] or a falsy one. *)
Definition lacks_translation (data : json) : bool :=
  match translation_of data with
  | Some t => negb (truthy t)
  | None => true
  end.

(** ** The component's data *)

(** A message as [handleSend] builds it. The object literal has no [language]
    property; the render code reads it all the same, and [None] stands for the
    [undefined] it gets. [summary] is [null] ([None]) or a string. *)
Record Message := {
  id : Z;
  text : jsstring;
  language : option jsstring;
  translations : gmap jsstring json;
  summary : option jsstring;
}.

(** The five [useState] cells. *)
Record State := {
  messages : list Message;
  inputText : jsstring;
  loading : bool;
  error : option jsstring;
  welcomeMessage : bool;
}.

Definition initial_state : State :=
  {| messages := []; inputText := js ""; loading := false; error := None;
     welcomeMessage := true |}.

Definition languages : list (jsstring * jsstring) :=
  [ (js "en", js "English"); (js "pt", js "Portuguese"); (js "es", js "Spanish");
    (js "ru", js "Russian"); (js "tr", js "Turkish"); (js "fr", js "French") ].

Definition language_codes : list jsstring := List.map fst languages.

(** ** Effects of a handler

    A handler calls state setters and awaits the external collaborators.  A
    setter is applied to the state current when it runs, so [setMessages]
    carries the updater function the source passes. *)

Inductive setter :=
| setMessages (update : list Message -> list Message)
| setInputText (v : jsstring)
| setLoading (v : bool)
| setError (v : option jsstring)
| setWelcomeMessage (v : bool).

Definition apply_setter (u : setter) (s : State) : State :=
  match u with
  | setMessages update =>
      {| messages := update (messages s); inputText := inputText s;
         loading := loading s; error := error s;
         welcomeMessage := welcomeMessage s |}
  | setInputText v =>
      {| messages := messages s; inputText := v; loading := loading s;
         error := error s; welcomeMessage := welcomeMessage s |}
  | setLoading v =>
      {| messages := messages s; inputText := inputText s; loading := v;
         error := error s; welcomeMessage := welcomeMessage s |}
  | setError v =>
      {| messages := messages s; inputText := inputText s;
         loading := loading s; error := v;
         welcomeMessage := welcomeMessage s |}
  | setWelcomeMessage v =>
      {| messages := messages s; inputText := inputText s;
         loading := loading s; error := error s; welcomeMessage := v |}
  end.

(** What [window.ai.summarizer.create()] resolves to: something without
    properties, or an object that has or lacks a [summarize] method. *)
Inductive summarizer_instance :=
| no_instance
| instance (has_summarize : bool).

(** What [fetch] resolves to, as far as the code reads it. *)
Record Response := { ok : bool; status : Z }.

(** The promises of the collaborators that the code awaits.  By the
    summarizer's contract [summarize] resolves to a string. *)
Inductive request :=
| summarizer_create
| summarizer_summarize (text : jsstring)
| fetch (url : jsstring)
| response_json.

Definition answer (r : request) : Type :=
  match r with
  | summarizer_create => summarizer_instance
  | summarizer_summarize _ => jsstring
  | fetch _ => Response
  | response_json => json
  end.

(** A computation: it returns, throws, calls a setter and goes on, or is
    suspended on a promise that settles with a rejection or with an answer. *)
Inductive prog (A : Type) : Type :=
| Ret (a : A)
| Throw (e : exn)
| Do (u : setter) (k : prog A)
| Await (r : request) (k : exn + answer r -> prog A).

Arguments Ret {A} a.
Arguments Throw {A} e.
Arguments Do {A} u k.
Arguments Await {A} r k.

Fixpoint bind {A B} (p : prog A) (f : A -> prog B) : prog B :=
  match p with
  | Ret a => f a
  | Throw e => Throw e
  | Do u k => Do u (bind k f)
  | Await r k => Await r (fun x => bind (k x) f)
  end.

#[global] Instance prog_ret : MRet prog := fun A a => Ret a.
#[global] Instance prog_bind : MBind prog := fun A B f p => bind p f.

Definition call (u : setter) : prog unit := Do u (Ret tt).

Definition await (r : request) : prog (answer r) :=
  Await r (fun x => match x with inl e => Throw e | inr a => Ret a end).

(** [try { p } catch (e) { handler e }] *)
Fixpoint try_catch {A} (p : prog A) (handler : exn -> prog A) : prog A :=
  match p with
  | Ret a => Ret a
  | Throw e => handler e
  | Do u k => Do u (try_catch k handler)
  | Await r k => Await r (fun x => try_catch (k x) handler)
  end.

(** [try { p } finally { cleanup }], for a [cleanup] that completes normally
    as the blocks of the source do. *)
Fixpoint try_finally {A} (p : prog A) (cleanup : prog unit) : prog A :=
  match p with
  | Ret a => bind cleanup (fun _ => Ret a)
  | Throw e => bind cleanup (fun _ => Throw e)
  | Do u k => Do u (try_finally k cleanup)
  | Await r k => Await r (fun x => try_finally (k x) cleanup)
  end.

(** The collaborators' side of one run: how each awaited promise settles. *)
Definition oracle := forall r : request, exn + answer r.

(** Running a computation to its end against an oracle. *)
Fixpoint run {A} (o : oracle) (p : prog A) (s : State) : State * (exn + A) :=
  match p with
  | Ret a => (s, inr a)
  | Throw e => (s, inl e)
  | Do u k => run o k (apply_setter u s)
  | Await r k => run o (k (o r)) s
  end.

(** The promises a run awaits, in order. *)
Fixpoint requests {A} (o : oracle) (p : prog A) : list request :=
  match p with
  | Ret _ | Throw _ => []
  | Do _ k => requests o k
  | Await r k => r :: requests o (k (o r))
  end.

(** Running a computation up to its first suspension. *)
Fixpoint exec {A} (p : prog A) (s : State) : State * prog A :=
  match p with
  | Do u k => exec k (apply_setter u s)
  | _ => (s, p)
  end.

(** ** The helpers and the handlers

    [fault_message] is the engine's wording of the errors it raises itself.
    [console.error] only logs and is left out. *)

Section Handlers.

Variable fault_message : fault -> jsstring.

Definition raise {A} (f : fault) : prog A := Throw (Error (fault_message f)).

(** [`${n}`] for an integer [n]. *)
Definition decimal (n : Z) : jsstring := js (NilZero.string_of_int (Z.to_int n)).

(** [window_ai] is the truthiness of [window.ai && window.ai.summarizer]
    when the function is called. *)
Definition summarizeText (window_ai : bool) (text : jsstring) : prog jsstring :=
  try_catch
    (if window_ai then
       summarizerInstance ← await summarizer_create;
       match summarizerInstance with
       | no_instance => raise (read_of_undefined (js "summarize"))
       | instance true => await (summarizer_summarize text)
       | instance false => Throw (Error (js "Summarizer API is not available"))
       end
     else Throw (Error (js "Summarizer API is not available")))
    (fun error => Throw (Error (js "Summarization failed"))).

(** [data.translation]: reading a property of [null] throws. *)
Definition get_translation (data : json) : prog (option json) :=
  match data with
  | JNull => raise (read_of_null (js "translation"))
  | _ => Ret (translation_of data)
  end.

Definition request_url (targetLang component : jsstring) : jsstring :=
  js "https://lingva.ml/api/v1/en/" ++ targetLang ++ js "/" ++ component.

Definition translateText (text targetLang : jsstring) : prog json :=
  try_catch
    (match encodeURIComponent text with
     | None => raise malformed_uri
     | Some component =>
         response ← await (fetch (request_url targetLang component));
         if negb (ok response) then
           Throw (Error (js "Lingva API request failed with status "
                           ++ decimal (status response)))
         else
           data ← await response_json;
           translation ← get_translation data;
           Ret (match translation with
                | Some t => if truthy t then t else JStr (js "Translation failed.")
                | None => JStr (js "Translation failed.")
                end)
     end)
    (fun error => Throw (Error (js "Translation failed."))).

(** [inputText] is the value the handler's closure holds, [now] the value of
    [Date.now()]. *)
Definition handleSend (inputText : jsstring) (now : Z) : prog unit :=
  if negb (truthy_string (trim inputText)) then Ret tt
  else
    call (setLoading true);;
    call (setError None);;
    try_finally
      (try_catch
         (let newMessage :=
            {| id := now; text := inputText; language := None;
               translations := ∅; summary := None |} in
          call (setMessages (fun prev => prev ++ [newMessage]));;
          call (setInputText (js "")))
         (fun err => call (setError (Some (message err)))))
      (call (setLoading false)).

(** [messages.find(m => m.id === messageId)] *)
Definition find_message (messages : list Message) (messageId : Z) : option Message :=
  List.find (fun m => id m =? messageId) messages.

(** [message.text] of what [find] returned. *)
Definition text_of (message : option Message) : prog jsstring :=
  match message with
  | Some m => Ret (text m)
  | None => raise (read_of_undefined (js "text"))
  end.

(** [{ ...msg, summary }] *)
Definition with_summary (msg : Message) (summary : jsstring) : Message :=
  {| id := id msg; text := text msg; language := language msg;
     translations := translations msg; summary := Some summary |}.

(** [{ ...msg, translations: { ...msg.translations, [targetLang]: translation } }] *)
Definition with_translation (msg : Message) (targetLang : jsstring)
    (translation : json) : Message :=
  {| id := id msg; text := text msg; language := language msg;
     translations := <[targetLang := translation]> (translations msg);
     summary := summary msg |}.

(** [messages] is the list the handler's closure holds. *)
Definition handleSummarize (messages : list Message) (window_ai : bool)
    (messageId : Z) : prog unit :=
  call (setLoading true);;
  call (setError None);;
  try_finally
    (try_catch
       (let message := find_message messages messageId in
        text ← text_of message;
        summary ← summarizeText window_ai text;
        call (setMessages (fun prevMessages =>
          List.map (fun msg =>
            if id msg =? messageId then with_summary msg summary else msg)
            prevMessages)))
       (fun err => call (setError (Some (message err)))))
    (call (setLoading false)).

Definition handleTranslate (messages : list Message) (messageId : Z)
    (targetLang : jsstring) : prog unit :=
  call (setLoading true);;
  call (setError None);;
  try_finally
    (try_catch
       (let message := find_message messages messageId in
        text ← text_of message;
        translation ← translateText text targetLang;
        call (setMessages (fun prevMessages =>
          List.map (fun msg =>
            if id msg =? messageId
            then with_translation msg targetLang translation
            else msg)
            prevMessages)))
       (fun err => call (setError (Some (message err)))))
    (call (setLoading false)).

(** ** What is rendered *)

(** The condition under which a message's Summarize button is rendered. *)
Definition summarize_offered (m : Message) : bool :=
  bool_decide (language m = Some (js "en"))
  && (150 <? Z.of_nat (length (text m)))
  && negb (match summary m with Some s => truthy_string s | None => false end).

(** [disabled] of the send button. *)
Definition send_disabled (s : State) : bool :=
  loading s || negb (truthy_string (trim (inputText s))).

(** The [value]s of a message's select: the placeholder, then the languages. *)
Definition select_values : list jsstring := js "" :: language_codes.

(** ** The page as a transition system

    The state cells together with the handler runs that are suspended on a
    promise.  An event comes from a control of the last render: a control
    that is rendered and not disabled.  A helper that throws before its first
    [await] rejects at once and the handler goes on in the same turn of the
    event loop, before any other event: such a run is not suspended. *)

Record World := { ui : State; pending : list (prog unit) }.

Definition initial_world : World := {| ui := initial_state; pending := [] |}.

Definition suspended (p : prog unit) : list (prog unit) :=
  match p with
  | Await _ _ => [p]
  | _ => []
  end.

(** Start or resume a run: it goes on to its next suspension or to its end. *)
Definition advance (p : prog unit) (s : State) (others : list (prog unit)) : World :=
  let (s', p') := exec p s in
  {| ui := s'; pending := others ++ suspended p' |}.

(** The events of the page.  A message's controls are named by the message's
    position in the list; [promise_settles i o] settles the
    promise that the [i]-th suspended run awaits as the oracle [o] says.  The
    select's [onChange] is taken to deliver any of its values. *)
Inductive ui_event :=
| input_change (v : jsstring)
| send_click (now : Z)
| summarize_click (i : nat) (window_ai : bool)
| language_select (i : nat) (value : jsstring)
| promise_settles (i : nat) (o : oracle).

Definition fire (w : World) (e : ui_event) : option World :=
  match e with
  | input_change v =>
      Some {| ui := apply_setter (setInputText v) (ui w); pending := pending w |}
  | send_click now =>
      if send_disabled (ui w) then None
      else Some (advance (handleSend (inputText (ui w)) now;;
                          call (setWelcomeMessage false))
                   (ui w) (pending w))
  | summarize_click i window_ai =>
      match messages (ui w) !! i with
      | Some m =>
          if summarize_offered m && negb (loading (ui w)) then
            Some (advance
                    (handleSummarize (messages (ui w)) window_ai (id m))
                    (ui w) (pending w))
          else None
      | None => None
      end
  | language_select i value =>
      match messages (ui w) !! i with
      | Some m =>
          if bool_decide (value ∈ select_values) && negb (loading (ui w)) then
            Some (advance
                    (handleTranslate (messages (ui w)) (id m) value)
                    (ui w) (pending w))
          else None
      | None => None
      end
  | promise_settles i o =>
      match pending w !! i with
      | Some (Await r k) => Some (advance (k (o r)) (ui w) (delete i (pending w)))
      | _ => None
      end
  end.

Fixpoint fire_all (w : World) (es : list ui_event) : option World :=
  match es with
  | [] => Some w
  | e :: es' =>
      match fire w e with
      | Some w' => fire_all w' es'
      | None => None
      end
  end.

(** The pages the events can lead to. *)
Definition reachable_by (es : list ui_event) (w : World) : Prop :=
  fire_all initial_world es = Some w.

End Handlers.

Arguments js : simpl never.
Arguments decimal : simpl never.
Arguments request_url : simpl never.
Arguments summarizeText : simpl never.
Arguments translateText : simpl never.

(** The wording of V8, the engine of the browsers that have [window.ai]. *)
Definition v8_fault_message (f : fault) : jsstring :=
  match f with
  | read_of_undefined p =>
      js "Cannot read properties of undefined (reading '" ++ p ++ js "')"
  | read_of_null p =>
      js "Cannot read properties of null (reading '" ++ p ++ js "')"
  | malformed_uri => js "URI malformed"
  end.

(** How a helper's promise settles against an oracle. *)
Definition outcome {A} (o : oracle) (p : prog A) : exn + A :=
  snd (run o p initial_state).

(** A computation that calls no setter. *)
Fixpoint silent {A} (p : prog A) : Prop :=
  match p with
  | Ret _ | Throw _ => True
  | Do _ _ => False
  | Await r k => forall x, silent (k x)
  end.

(** Every setter call of the computation, whenever it comes, keeps [I]. *)
Fixpoint preserves {A} (I : State -> Prop) (p : prog A) : Prop :=
  match p with
  | Ret _ | Throw _ => True
  | Do u k => (forall s, I s -> I (apply_setter u s)) /\ preserves I k
  | Await r k => forall x, preserves I (k x)
  end.

(** Started with [loading] equal to [b], the computation is suspended only
    while [loading] is true and ends with [loading] false. *)
Fixpoint busy_until_end {A} (b : bool) (p : prog A) : Prop :=
  match p with
  | Ret _ | Throw _ => b = false
  | Do (setLoading v) k => busy_until_end v k
  | Do _ k => busy_until_end b k
  | Await r k => b = true /\ forall x, busy_until_end true (k x)
  end.

(** The computation keeps [loading] true through every setter call and every
    suspension, and its last act is [setLoading(false)]. *)
Fixpoint busy_then_idle (p : prog unit) : Prop :=
  match p with
  | Ret _ | Throw _ => False
  | Do (setLoading false) k => k = Ret tt
  | Do _ k => busy_then_idle k
  | Await r k => forall x, busy_then_idle (k x)
  end.


(** ** A sample page and sample collaborators, for the examples *)

Definition hello_message : Message :=
  {| id := 1700000000000; text := js "Hello world"; language := None;
     translations := ∅; summary := None |}.

Definition hello_state : State :=
  {| messages := [hello_message]; inputText := js ""; loading := false;
     error := None; welcomeMessage := false |}.

(** A summarizer that answers [summary], and a translation service that
    answers with the status [st] and the body [body]. *)
Definition collaborators (summary : exn + jsstring) (st : Z) (body : exn + json) : oracle :=
  fun r =>
    match r with
    | summarizer_create => inr (instance true)
    | summarizer_summarize _ => summary
    | fetch _ => inr {| ok := (200 <=? st) && (st <=? 299); status := st |}
    | response_json => body
    end.

Definition service (st : Z) (body : exn + json) : oracle :=
  collaborators (inl (Error (js "unused"))) st body.

(** Two messages sent within one tick of the clock: they carry one [id]. *)
Definition twin_events : list ui_event :=
  [ input_change (js "first"); send_click 1700000000000;
    input_change (js "second"); send_click 1700000000000 ].

(** A property of every message of the list. *)
Definition every_message (P : Message -> Prop) (s : State) : Prop :=
  forall m, In m (messages s) -> P m.

(** Either nothing is suspended and [loading] is false, or one run is
    suspended, [loading] is true and the run will clear it. *)
Definition busy_iff_pending (w : World) : Prop :=
  (pending w = [] /\ loading (ui w) = false)
  \/ (exists p, pending w = [p] /\ suspended p = [p]
        /\ loading (ui w) = true /\ busy_until_end true p).

(** The translations of a message use only configured language codes. *)
Definition configured_keys (m : Message) : Prop :=
  forall k, is_Some (translations m !! k) -> In k language_codes.

(** A message is sent and translated to Spanish; then the select is put back
    on its placeholder, whose value is the empty string, and the service
    answers that request too. *)
Definition placeholder_events : list ui_event :=
  let o := service 200 (inr (JObj [(js "translation", JStr (js "Hola mundo"))])) in
  [ input_change (js "Hello world"); send_click 1700000000000;
    language_select 0 (js "es"); promise_settles 0 o; promise_settles 0 o;
    language_select 0 (js ""); promise_settles 0 o; promise_settles 0 o ].

(** ** States a run passes through, and invariants of rendered states *)

(** After [setLoading(true); setError(null)], the start of an operation. *)
Definition begun (s : State) : State :=
  apply_setter (setError None) (apply_setter (setLoading true) s).

(** After [setError(msg); setLoading(false)], the end of a failed operation. *)
Definition failed (msg : jsstring) (s : State) : State :=
  apply_setter (setLoading false) (apply_setter (setError (Some msg)) s).

(** After the update of a successful translate and [setLoading(false)]. *)
Definition translated (messageId : Z) (targetLang : jsstring) (translation : json)
    (s : State) : State :=
  apply_setter (setLoading false)
    (apply_setter
       (setMessages (fun prevMessages =>
          List.map (fun msg =>
            if id msg =? messageId
            then with_translation msg targetLang translation
            else msg) prevMessages)) s).

(** After an accepted click on the send button. *)
Definition submitted (now : Z) (s : State) : State :=
  {| messages := messages s ++ [ {| id := now; text := inputText s; language := None;
                                    translations := ∅; summary := None |} ];
     inputText := js ""; loading := false; error := None;
     welcomeMessage := false |}.

(** Run from [s], the computation is in a state of [I] whenever it is
    suspended and when it ends, if it is resumed in states of [I] only. *)
Fixpoint keeps {A} (I : State -> Prop) (p : prog A) (s : State) : Prop :=
  match p with
  | Ret _ | Throw _ => I s
  | Do u k => keeps I k (apply_setter u s)
  | Await r k => I s /\ forall x s', I s' -> keeps I (k x) s'
  end.

Definition resumable (I : State -> Prop) (p : prog unit) : Prop :=
  forall s, I s -> keeps I p s.

(** [I] survives the two ways a translate run ends. *)
Definition settling (I : State -> Prop) : Prop :=
  (forall s, I s -> I (failed (js "Translation failed.") s))
  /\ (forall s messageId targetLang translation,
        I s -> In targetLang select_values -> truthy translation = true ->
        I (translated messageId targetLang translation s)).

(** The suspended runs of a page are resumable for every such [I]. *)
Definition translate_runs (w : World) : Prop :=
  Forall (fun p => forall I, settling I -> resumable I p) (pending w).

(** ** What the events add to the message list *)

(** The [id] and [text] of the messages that the events add, in order, when
    the textarea holds [input] before them. *)
Fixpoint sends (input : jsstring) (es : list ui_event) : list (Z * jsstring) :=
  match es with
  | [] => []
  | input_change v :: es' => sends v es'
  | send_click now :: es' => (now, input) :: sends (js "") es'
  | _ :: es' => sends input es'
  end.

Definition sent (s : State) : list (Z * jsstring) :=
  List.map (fun m => (id m, text m)) (messages s).


(** The clock values that the send clicks among the events read. *)
Fixpoint clicks (es : list ui_event) : list Z :=
  match es with
  | [] => []
  | send_click now :: es' => now :: clicks es'
  | _ :: es' => clicks es'
  end.

(** The characters [encodeURIComponent] lets through, and the percent sign of
    its escapes. *)
Definition is_url_safe (c : N) : bool := is_unreserved c || (c =? 37)%N.

(** [languages.find(l => l.code === lang)?.name], the heading of a
    translation: [None] is [undefined]. *)
Definition language_name (lang : jsstring) : option jsstring :=
  snd <$> List.find (fun l => bool_decide (fst l = lang)) languages.

(** On every path the computation is suspended at most [n] times. *)
Fixpoint awaits_at_most {A} (n : nat) (p : prog A) : Prop :=
  match p with
  | Ret _ | Throw _ => True
  | Do _ k => awaits_at_most n k
  | Await r k =>
      match n with
      | O => False
      | S n' => forall x, awaits_at_most n' (k x)
      end
  end.

(** * Properties *)

(** ** Running the combinators *)

Lemma run_bind {A B} (o : oracle) (p : prog A) (f : A -> prog B) s :
  run o (bind p f) s =
  match run o p s with
  | (s', inr a) => run o (f a) s'
  | (s', inl e) => (s', inl e)
  end.
Proof.
  revert s. induction p as [a|e|u k IH|r k IH]; intros s; cbn; auto.
Qed.

Lemma run_try_catch {A} (o : oracle) (p : prog A) handler s :
  run o (try_catch p handler) s =
  match run o p s with
  | (s', inl e) => run o (handler e) s'
  | (s', inr a) => (s', inr a)
  end.
Proof.
  revert s. induction p as [a|e|u k IH|r k IH]; intros s; cbn; auto.
Qed.

Lemma run_try_finally {A} (o : oracle) (p : prog A) cleanup s :
  run o (try_finally p cleanup) s =
  match run o p s with
  | (s', r) =>
      match run o cleanup s' with
      | (s'', inr _) => (s'', r)
      | (s'', inl e) => (s'', inl e)
      end
  end.
Proof.
  revert s. induction p as [a|e|u k IH|r k IH]; intros s; cbn; auto;
    rewrite run_bind; destruct (run o cleanup s) as [s'' [e'|[]]]; reflexivity.
Qed.

Lemma run_silent {A} (o : oracle) (p : prog A) s :
  silent p -> run o p s = (s, outcome o p).
Proof.
  unfold outcome. generalize initial_state as s0.
  induction p as [a|e|u k IH|r k IH]; intros s0 Hp; cbn in *; auto; contradiction.
Qed.

Lemma preserves_silent {A} I (p : prog A) : silent p -> preserves I p.
Proof. induction p; cbn; auto; contradiction. Qed.

Lemma preserves_bind {A B} I (p : prog A) (f : A -> prog B) :
  preserves I p -> (forall a, preserves I (f a)) -> preserves I (bind p f).
Proof. induction p; cbn; intuition auto. Qed.

Lemma preserves_try_catch {A} I (p : prog A) handler :
  preserves I p -> (forall e, preserves I (handler e)) ->
  preserves I (try_catch p handler).
Proof. induction p; cbn; intuition auto. Qed.

Lemma preserves_try_finally {A} I (p : prog A) cleanup :
  preserves I p -> preserves I cleanup -> preserves I (try_finally p cleanup).
Proof.
  induction p; cbn; intuition auto; apply preserves_bind; cbn; auto.
Qed.

Lemma preserves_exec {A} I (p : prog A) s :
  preserves I p -> I s -> I (fst (exec p s)) /\ preserves I (snd (exec p s)).
Proof.
  revert s. induction p as [a|e|u k IH|r k IH]; intros s Hp Hs; cbn in *; auto.
  destruct Hp as [Hu Hk]. auto.
Qed.

Lemma busy_until_end_exec {A} (p : prog A) s :
  busy_until_end (loading s) p ->
  match snd (exec p s) with
  | Await r k => loading (fst (exec p s)) = true
                 /\ forall x, busy_until_end true (k x)
  | _ => loading (fst (exec p s)) = false
  end.
Proof.
  revert s. induction p as [a|e|u k IH|r k IH]; intros s Hp; cbn in *; auto.
  apply IH. destruct u; cbn; auto.
Qed.

(** ** The helpers call no setter and reject with one message *)

Section Helpers.

Variable fault_message : fault -> jsstring.

Lemma silent_summarizeText window_ai text :
  silent (summarizeText fault_message window_ai text).
Proof.
  unfold summarizeText. destruct window_ai; cbn; auto.
  intros [e|[|[]]]; cbn; auto. intros [e|s]; cbn; auto.
Qed.

Lemma silent_translateText text targetLang :
  silent (translateText fault_message text targetLang).
Proof.
  unfold translateText. destruct (encodeURIComponent text); cbn; auto.
  intros [e|[[] st]]; cbn; auto.
  intros [e|data]; cbn; auto. destruct data; cbn; auto.
Qed.

Lemma summarizeText_rejection o window_ai text e :
  outcome o (summarizeText fault_message window_ai text) = inl e ->
  e = Error (js "Summarization failed").
Proof.
  unfold outcome, summarizeText. rewrite run_try_catch.
  destruct (run o _ initial_state) as [s' [e'|a]]; cbn; congruence.
Qed.

Lemma translateText_rejection o text targetLang e :
  outcome o (translateText fault_message text targetLang) = inl e ->
  e = Error (js "Translation failed.").
Proof.
  unfold outcome, translateText. rewrite run_try_catch.
  destruct (run o _ initial_state) as [s' [e'|a]]; cbn; congruence.
Qed.

End Helpers.

Lemma trimStart_empty_iff s :
  trimStart s = [] <-> Forall (fun c => is_white_space c = true) s.
Proof.
  induction s as [|c rest IH]; cbn.
  - split; auto.
  - destruct (is_white_space c) eqn:E.
    + rewrite IH. split; [auto|]. intros H; inversion H; auto.
    + split; [discriminate|]. intros H; inversion H; congruence.
Qed.

Lemma trimStart_white s :
  Forall (fun c => is_white_space c = true) (trimStart s) ->
  Forall (fun c => is_white_space c = true) s.
Proof.
  induction s as [|c rest IH]; cbn; auto.
  destruct (is_white_space c) eqn:E; auto.
Qed.

(** [trim] leaves nothing exactly when the string is empty or all white space. *)
Lemma trim_empty_iff s :
  trim s = [] <-> Forall (fun c => is_white_space c = true) s.
Proof.
  unfold trim, trimEnd. split.
  - intros H. apply trimStart_white.
    apply (f_equal (@rev N)) in H. rewrite rev_involutive in H. cbn in H.
    apply trimStart_empty_iff in H.
    apply Forall_rev in H. now rewrite rev_involutive in H.
  - intros H. apply trimStart_empty_iff in H. rewrite H. reflexivity.
Qed.

Lemma run_mbind {A B} (o : oracle) (p : prog A) (f : A -> prog B) s :
  run o (p ≫= f) s =
  match run o p s with
  | (s', inr a) => run o (f a) s'
  | (s', inl e) => (s', inl e)
  end.
Proof. apply run_bind. Qed.

Section HandlerRuns.

Variable fault_message : fault -> jsstring.

Lemma run_handleSummarize o s msgs window_ai messageId m :
  find_message msgs messageId = Some m ->
  run o (handleSummarize fault_message msgs window_ai messageId) s =
  (match outcome o (summarizeText fault_message window_ai (text m)) with
   | inr summary =>
       {| messages :=
            List.map (fun msg =>
              if id msg =? messageId then with_summary msg summary else msg)
              (messages s);
          inputText := inputText s; loading := false; error := None;
          welcomeMessage := welcomeMessage s |}
   | inl err =>
       {| messages := messages s; inputText := inputText s; loading := false;
          error := Some (message err); welcomeMessage := welcomeMessage s |}
   end, inr tt).
Proof.
  intros Hfind. unfold handleSummarize. rewrite Hfind. cbn.
  rewrite run_try_finally, run_try_catch, run_mbind.
  rewrite (run_silent _ _ _ (silent_summarizeText _ _ _)).
  destruct (outcome o _) as [err|summary]; reflexivity.
Qed.

Lemma run_handleTranslate o s msgs messageId targetLang m :
  find_message msgs messageId = Some m ->
  run o (handleTranslate fault_message msgs messageId targetLang) s =
  (match outcome o (translateText fault_message (text m) targetLang) with
   | inr translation =>
       {| messages :=
            List.map (fun msg =>
              if id msg =? messageId
              then with_translation msg targetLang translation
              else msg)
              (messages s);
          inputText := inputText s; loading := false; error := None;
          welcomeMessage := welcomeMessage s |}
   | inl err =>
       {| messages := messages s; inputText := inputText s; loading := false;
          error := Some (message err); welcomeMessage := welcomeMessage s |}
   end, inr tt).
Proof.
  intros Hfind. unfold handleTranslate. rewrite Hfind. cbn.
  rewrite run_try_finally, run_try_catch, run_mbind.
  rewrite (run_silent _ _ _ (silent_translateText _ _ _)).
  destruct (outcome o _) as [err|translation]; reflexivity.
Qed.

End HandlerRuns.

(** ** Submitting *)

(** C3. When the trimmed input is not empty, [handleSend] appends exactly one
    message, whose text is the input as typed (untrimmed), with no
    translations and no summary, and it clears the error and the input
    buffer; when the input is empty or all white space it changes nothing. *)
Theorem handleSend_appends_or_ignores (o : oracle) (s : State) (now : Z) :
  let s' := fst (run o (handleSend (inputText s) now) s) in
  (trim (inputText s) <> [] ->
     messages s' =
       messages s ++ [ {| id := now; text := inputText s; language := None;
                          translations := ∅; summary := None |} ]
     /\ length (messages s') = S (length (messages s))
     /\ error s' = None
     /\ inputText s' = []
     /\ loading s' = false
     /\ welcomeMessage s' = welcomeMessage s)
  /\ (Forall (fun c => is_white_space c = true) (inputText s) -> s' = s).
Proof.
  cbn zeta. unfold handleSend. split.
  - intros Hne. destruct (trim (inputText s)) eqn:E; [congruence|]. cbn.
    repeat split. rewrite length_app. cbn. lia.
  - intros Hws. apply trim_empty_iff in Hws. rewrite Hws. reflexivity.
Qed.

Lemma handleSend_appends_or_ignores_witness :
  let typed := apply_setter (setInputText (js " Hello world ")) initial_state in
  let blank := apply_setter (setInputText [32%N; 10%N; 9%N]) initial_state in
  let o : oracle := fun r => inl (Error (js "offline")) in
  (trim (inputText typed) <> []
   /\ messages (fst (run o (handleSend (inputText typed) 1700000000000) typed)) =
        [ {| id := 1700000000000; text := js " Hello world "; language := None;
             translations := ∅; summary := None |} ])
  /\ (Forall (fun c => is_white_space c = true) (inputText blank)
      /\ fst (run o (handleSend (inputText blank) 1700000000000) blank) = blank).
Proof.
  intros typed blank o. split.
  - assert (Hne : trim (inputText typed) <> []) by (vm_compute; discriminate).
    split; [exact Hne|].
    exact (proj1 (proj1 (handleSend_appends_or_ignores o typed 1700000000000) Hne)).
  - assert (Hws : Forall (fun c => is_white_space c = true) (inputText blank))
      by (repeat constructor).
    split; [exact Hws|].
    exact (proj2 (handleSend_appends_or_ignores o blank 1700000000000) Hws).
Defined.

(** ** How the helpers settle *)

Section Outcomes.

Variable fault_message : fault -> jsstring.

Lemma outcome_summarizeText o window_ai text :
  outcome o (summarizeText fault_message window_ai text) =
  if window_ai then
    match o summarizer_create with
    | inr (instance true) =>
        match o (summarizer_summarize text) with
        | inr summary => inr summary
        | inl _ => inl (Error (js "Summarization failed"))
        end
    | _ => inl (Error (js "Summarization failed"))
    end
  else inl (Error (js "Summarization failed")).
Proof.
  unfold outcome, summarizeText. destruct window_ai; cbn; [|reflexivity].
  destruct (o summarizer_create) as [e|[|[]]]; cbn; try reflexivity.
  destruct (o (summarizer_summarize text)); reflexivity.
Qed.

Lemma outcome_translateText o text targetLang :
  outcome o (translateText fault_message text targetLang) =
  match encodeURIComponent text with
  | None => inl (Error (js "Translation failed."))
  | Some component =>
      match o (fetch (request_url targetLang component)) with
      | inl _ => inl (Error (js "Translation failed."))
      | inr response =>
          if ok response then
            match o response_json with
            | inl _ | inr JNull => inl (Error (js "Translation failed."))
            | inr data =>
                inr (match translation_of data with
                     | Some t => if truthy t then t else JStr (js "Translation failed.")
                     | None => JStr (js "Translation failed.")
                     end)
            end
          else inl (Error (js "Translation failed."))
      end
  end.
Proof.
  unfold outcome, translateText. destruct (encodeURIComponent text); cbn; [|reflexivity].
  destruct (o (fetch _)) as [e|[[] st]]; cbn; try reflexivity.
  destruct (o response_json) as [e|[]]; reflexivity.
Qed.

End Outcomes.

(** ** A body without a usable translation *)

(** C1, as the code has it.  After a success status, a body that is not JSON
    or is [null] makes the call fail as a non-success status does:
    translations unchanged, [error] set to "Translation failed.".  Any other
    body whose [translation] is missing or falsy makes the call succeed with
    the fallback string "Translation failed." as the translation: it is stored
    under the target code and [error] stays cleared. *)
Theorem translate_body_without_translation (fault_message : fault -> jsstring)
    (o : oracle) (s : State) (messageId : Z) (targetLang : jsstring)
    (m : Message) (component : jsstring) (response : Response) :
  find_message (messages s) messageId = Some m ->
  encodeURIComponent (text m) = Some component ->
  o (fetch (request_url targetLang component)) = inr response ->
  ok response = true ->
  let s' := fst (run o (handleTranslate fault_message (messages s) messageId targetLang) s) in
  (forall data, o response_json = inr data -> data <> JNull ->
     lacks_translation data = true ->
     messages s' =
       List.map (fun msg =>
         if id msg =? messageId
         then with_translation msg targetLang (JStr (js "Translation failed."))
         else msg) (messages s)
     /\ error s' = None /\ loading s' = false)
  /\ ((exists e, o response_json = inl e) \/ o response_json = inr JNull ->
      messages s' = messages s
      /\ error s' = Some (js "Translation failed.") /\ loading s' = false).
Proof.
  intros Hfind Henc Hfetch Hok. cbn zeta.
  rewrite (run_handleTranslate _ _ _ _ _ _ _ Hfind), outcome_translateText.
  rewrite Henc, Hfetch, Hok. split.
  - intros data Hdata Hnull Hlacks. rewrite Hdata.
    unfold lacks_translation in Hlacks.
    destruct data; try congruence; cbn in *; auto.
    destruct (member _ members) as [t|]; cbn; auto.
    destruct (truthy t); [discriminate|]. cbn. auto.
  - intros [[e He]|He]; rewrite He; cbn; auto.
Qed.

Lemma translate_body_without_translation_witness :
  let o := service 200 (inr (JObj [])) in
  let o' := service 200 (inr JNull) in
  let url := request_url (js "es") (js "Hello%20world") in
  let run_with o :=
    fst (run o (handleTranslate v8_fault_message (messages hello_state)
                  1700000000000 (js "es")) hello_state) in
  find_message (messages hello_state) 1700000000000 = Some hello_message
  /\ encodeURIComponent (text hello_message) = Some (js "Hello%20world")
  /\ o (fetch url) = inr {| ok := true; status := 200 |}
  /\ o' (fetch url) = inr {| ok := true; status := 200 |}
  /\ (o response_json = inr (JObj []) /\ JObj [] <> JNull
      /\ lacks_translation (JObj []) = true
      /\ messages (run_with o) =
           [with_translation hello_message (js "es") (JStr (js "Translation failed."))]
      /\ error (run_with o) = None)
  /\ (o' response_json = inr JNull
      /\ messages (run_with o') = messages hello_state
      /\ error (run_with o') = Some (js "Translation failed.")).
Proof.
  intros o o' url run_with.
  assert (Hfind : find_message (messages hello_state) 1700000000000 = Some hello_message)
    by reflexivity.
  assert (Henc : encodeURIComponent (text hello_message) = Some (js "Hello%20world"))
    by reflexivity.
  assert (Hfetch : o (fetch url) = inr {| ok := true; status := 200 |}) by reflexivity.
  assert (Hfetch' : o' (fetch url) = inr {| ok := true; status := 200 |}) by reflexivity.
  destruct (translate_body_without_translation v8_fault_message o hello_state
              1700000000000 (js "es") hello_message (js "Hello%20world")
              {| ok := true; status := 200 |} Hfind Henc Hfetch eq_refl) as [Hstored _].
  destruct (translate_body_without_translation v8_fault_message o' hello_state
              1700000000000 (js "es") hello_message (js "Hello%20world")
              {| ok := true; status := 200 |} Hfind Henc Hfetch' eq_refl) as [_ Hfails].
  pose proof (Hstored (JObj []) eq_refl ltac:(discriminate) eq_refl) as [Hm [He _]].
  pose proof (Hfails (or_intror eq_refl)) as [Hm' [He' _]].
  split; [exact Hfind|]. split; [exact Henc|]. split; [exact Hfetch|].
  split; [exact Hfetch'|]. split.
  - split; [reflexivity|]. split; [discriminate|]. split; [reflexivity|].
    split; [exact Hm | exact He].
  - split; [reflexivity|]. split; [exact Hm' | exact He'].
Defined.

(** C1 fails on the code: the service answers 200 with the body [{}], and the
    message gets "Translation failed." as its Spanish translation while
    [error] stays [null]. *)
Lemma body_without_translation_is_stored :
  let o := service 200 (inr (JObj [])) in
  let s' := fst (run o (handleTranslate v8_fault_message (messages hello_state)
                          1700000000000 (js "es")) hello_state) in
  translations hello_message !! js "es" = None
  /\ (exists m', messages s' = [m']
        /\ translations m' !! js "es" = Some (JStr (js "Translation failed.")))
  /\ error s' = None.
Proof.
  cbn zeta. split; [reflexivity|]. split; [|reflexivity].
  eexists. split; [reflexivity|]. reflexivity.
Qed.

(** ** Failed calls *)

(** C5. A summarize or translate call on an existing message whose helper
    rejects (summarizer missing or failing, request failing, non-success
    status, unreadable body) leaves the whole message list as it was and sets
    [error] to "Summarization failed", respectively "Translation failed.". *)
Theorem failed_call_leaves_messages (fault_message : fault -> jsstring)
    (o : oracle) (s : State) (messageId : Z) (m : Message) :
  find_message (messages s) messageId = Some m ->
  (forall window_ai e,
     outcome o (summarizeText fault_message window_ai (text m)) = inl e ->
     let s' := fst (run o (handleSummarize fault_message (messages s) window_ai messageId) s) in
     messages s' = messages s /\ error s' = Some (js "Summarization failed"))
  /\ (forall targetLang e,
        outcome o (translateText fault_message (text m) targetLang) = inl e ->
        let s' := fst (run o (handleTranslate fault_message (messages s) messageId targetLang) s) in
        messages s' = messages s /\ error s' = Some (js "Translation failed.")).
Proof.
  intros Hfind. split.
  - intros window_ai e He. cbn zeta.
    rewrite (run_handleSummarize _ _ _ _ _ _ _ Hfind), He.
    apply summarizeText_rejection in He. subst e. auto.
  - intros targetLang e He. cbn zeta.
    rewrite (run_handleTranslate _ _ _ _ _ _ _ Hfind), He.
    apply translateText_rejection in He. subst e. auto.
Qed.

(** The causes of a rejection, on the collaborators' side. *)
Lemma summarizeText_rejects_iff fault_message o window_ai text :
  (exists e, outcome o (summarizeText fault_message window_ai text) = inl e) <->
  window_ai = false
  \/ (exists e, o summarizer_create = inl e)
  \/ o summarizer_create = inr no_instance
  \/ o summarizer_create = inr (instance false)
  \/ (exists e, o (summarizer_summarize text) = inl e).
Proof.
  rewrite outcome_summarizeText. destruct window_ai.
  - destruct (o summarizer_create) as [e|[|[]]] eqn:Hc.
    + split; eauto 6.
    + split; eauto 6.
    + destruct (o (summarizer_summarize text)) as [e|summary] eqn:Hs.
      * split; eauto 8.
      * split; [intros [e He]; discriminate|].
        intros [H|[[e H]|[H|[H|[e H]]]]]; discriminate.
    + split; eauto 6.
  - split; eauto.
Qed.

Lemma translateText_rejects_iff fault_message o text targetLang :
  (exists e, outcome o (translateText fault_message text targetLang) = inl e) <->
  encodeURIComponent text = None
  \/ exists component, encodeURIComponent text = Some component
       /\ ((exists e, o (fetch (request_url targetLang component)) = inl e)
           \/ exists response,
                o (fetch (request_url targetLang component)) = inr response
                /\ (ok response = false
                    \/ (exists e, o response_json = inl e)
                    \/ o response_json = inr JNull)).
Proof.
  rewrite outcome_translateText.
  destruct (encodeURIComponent text) as [component|]; [|split; eauto].
  destruct (o (fetch _)) as [e|response] eqn:Hf.
  - split; [|eauto]. intros _. right. exists component. split; [reflexivity|].
    left. eauto.
  - destruct (ok response) eqn:Hok.
    + destruct (o response_json) as [e|data] eqn:Hj.
      * split; [|eauto]. intros _. right. exists component. split; [reflexivity|].
        right. exists response. eauto 6.
      * destruct data;
          try (split; [intros [e He]; discriminate|];
               intros [H|[c [Hc [[e H]|[r [Hr [H|[[e H]|H]]]]]]]];
               simplify_eq; congruence).
        split; [|eauto]. intros _. right. exists component. split; [reflexivity|].
        right. exists response. eauto 6.
    + split; [|eauto]. intros _. right. exists component. split; [reflexivity|].
      right. exists response. eauto.
Qed.

Lemma failed_call_leaves_messages_witness :
  let unavailable := false in
  let o := service 500 (inr (JObj [(js "error", JStr (js "Internal Server Error"))])) in
  find_message (messages hello_state) 1700000000000 = Some hello_message
  /\ (outcome o (summarizeText v8_fault_message unavailable (text hello_message))
        = inl (Error (js "Summarization failed"))
      /\ let s' := fst (run o (handleSummarize v8_fault_message (messages hello_state)
                                 unavailable 1700000000000) hello_state) in
         messages s' = messages hello_state
         /\ error s' = Some (js "Summarization failed"))
  /\ (outcome o (translateText v8_fault_message (text hello_message) (js "fr"))
        = inl (Error (js "Translation failed."))
      /\ let s' := fst (run o (handleTranslate v8_fault_message (messages hello_state)
                                 1700000000000 (js "fr")) hello_state) in
         messages s' = messages hello_state
         /\ error s' = Some (js "Translation failed.")).
Proof.
  intros unavailable o.
  assert (Hfind : find_message (messages hello_state) 1700000000000 = Some hello_message)
    by reflexivity.
  destruct (failed_call_leaves_messages v8_fault_message o hello_state
              1700000000000 hello_message Hfind) as [Hsum Htr].
  split; [exact Hfind|]. split.
  - split; [reflexivity|]. exact (Hsum unavailable _ eq_refl).
  - split; [reflexivity|]. exact (Htr (js "fr") _ eq_refl).
Defined.

(** ** Successful calls *)

Lemma lookup_map {A B} (f : A -> B) (l : list A) (i : nat) :
  List.map f l !! i = f <$> l !! i.
Proof.
  revert i. induction l as [|a l IH]; intros [|i]; cbn; auto.
Qed.

Lemma find_message_map (f : Message -> Message) msgs messageId :
  (forall msg, id (f msg) = id msg) ->
  find_message (List.map f msgs) messageId = f <$> find_message msgs messageId.
Proof.
  intros Hid. unfold find_message. induction msgs as [|a l IH]; cbn; auto.
  rewrite Hid. destruct (id a =? messageId); auto.
Qed.

(** A message that is in the list is found by its [id], or an earlier one
    with the same [id] is. *)
Lemma find_message_In msgs m :
  In m msgs -> exists m0, find_message msgs (id m) = Some m0 /\ id m0 = id m.
Proof.
  unfold find_message. induction msgs as [|a l IH]; cbn; [contradiction|].
  intros [->|Hin].
  - rewrite Z.eqb_refl. eauto.
  - destruct (id a =? id m) eqn:E; [|auto].
    apply Z.eqb_eq in E. eauto.
Qed.

(** C6, as the code has it.  A successful summarize call sets [summary] to
    exactly the string the summarizer returned on every message that carries
    the given id, leaves the [id], [text] and [translations] of those messages
    as they were, and leaves every message with another id unchanged. *)
Theorem summarize_sets_summary (fault_message : fault -> jsstring)
    (o : oracle) (s : State) (messageId : Z) (m : Message) (returned : jsstring) :
  find_message (messages s) messageId = Some m ->
  o summarizer_create = inr (instance true) ->
  o (summarizer_summarize (text m)) = inr returned ->
  let s' := fst (run o (handleSummarize fault_message (messages s) true messageId) s) in
  length (messages s') = length (messages s)
  /\ (forall i msg, messages s !! i = Some msg ->
        exists msg', messages s' !! i = Some msg'
          /\ id msg' = id msg /\ text msg' = text msg
          /\ language msg' = language msg
          /\ translations msg' = translations msg
          /\ (id msg = messageId -> summary msg' = Some returned)
          /\ (id msg <> messageId -> msg' = msg))
  /\ error s' = None /\ loading s' = false.
Proof.
  intros Hfind Hcreate Hsum. cbn zeta.
  rewrite (run_handleSummarize _ _ _ _ _ _ _ Hfind), outcome_summarizeText.
  rewrite Hcreate, Hsum. cbn. split; [apply length_map|]. split; [|auto].
  intros i msg Hi. rewrite lookup_map, Hi. cbn.
  destruct (id msg =? messageId) eqn:E.
  - apply Z.eqb_eq in E. eexists. split; [reflexivity|]. cbn.
    repeat split; auto. congruence.
  - apply Z.eqb_neq in E. exists msg. repeat split; auto. congruence.
Qed.

Lemma summarize_sets_summary_witness :
  let o := collaborators (inr (js "A summary.")) 200 (inr JNull) in
  let s' := fst (run o (handleSummarize v8_fault_message (messages hello_state)
                          true 1700000000000) hello_state) in
  find_message (messages hello_state) 1700000000000 = Some hello_message
  /\ o summarizer_create = inr (instance true)
  /\ o (summarizer_summarize (text hello_message)) = inr (js "A summary.")
  /\ length (messages s') = length (messages hello_state)
  /\ (exists msg', messages s' !! 0%nat = Some msg'
        /\ id msg' = id hello_message /\ text msg' = text hello_message
        /\ language msg' = language hello_message
        /\ translations msg' = translations hello_message
        /\ (id hello_message = 1700000000000 -> summary msg' = Some (js "A summary."))
        /\ (id hello_message <> 1700000000000 -> msg' = hello_message)).
Proof.
  intros o s'.
  assert (Hfind : find_message (messages hello_state) 1700000000000 = Some hello_message)
    by reflexivity.
  destruct (summarize_sets_summary v8_fault_message o hello_state 1700000000000
              hello_message (js "A summary.") Hfind eq_refl eq_refl)
    as [Hlen [Hmsgs _]].
  split; [exact Hfind|]. split; [reflexivity|]. split; [reflexivity|].
  split; [exact Hlen|]. exact (Hmsgs 0%nat hello_message eq_refl).
Defined.

(** C6 fails on the code: two messages sent within one clock tick carry one
    [id]; summarizing it, [find] picks the first, and the second message,
    another message, gets the summary of the first one's text as well. *)
Lemma summarize_changes_the_twin :
  exists w, reachable_by v8_fault_message twin_events w
    /\ let s := ui w in
       let o := collaborators (inr (js "A summary.")) 200 (inr JNull) in
       let s' := fst (run o (handleSummarize v8_fault_message (messages s)
                               true 1700000000000) s) in
       exists target other other',
         find_message (messages s) 1700000000000 = Some target
         /\ messages s !! 0%nat = Some target
         /\ messages s !! 1%nat = Some other
         /\ messages s' !! 1%nat = Some other'
         /\ text target = js "first" /\ text other = js "second"
         /\ summary other = None
         /\ summary other' = Some (js "A summary.").
Proof.
  eexists. split; [reflexivity|]. cbn zeta.
  do 3 eexists. repeat split; reflexivity.
Qed.

(** C4. After a successful translate of a message to [L1] and then a
    successful translate to [L2], the message's translations hold the second
    result under [L2] and, when [L1] differs from [L2], the first result under
    [L1]; every other key keeps its value.  With [L1 = L2] this is the
    overwrite: the entry holds the second result and no other key changes.
    It holds for all target codes, the six configured ones among them. *)
Theorem translate_twice (fault_message : fault -> jsstring) (o1 o2 : oracle)
    (s : State) (messageId : Z) (i : nat) (m m0 : Message)
    (L1 L2 : jsstring) (t1 t2 : json) :
  messages s !! i = Some m ->
  id m = messageId ->
  find_message (messages s) messageId = Some m0 ->
  outcome o1 (translateText fault_message (text m0) L1) = inr t1 ->
  outcome o2 (translateText fault_message (text m0) L2) = inr t2 ->
  let s1 := fst (run o1 (handleTranslate fault_message (messages s) messageId L1) s) in
  let s2 := fst (run o2 (handleTranslate fault_message (messages s1) messageId L2) s1) in
  exists m2, messages s2 !! i = Some m2
    /\ translations m2 !! L2 = Some t2
    /\ (L1 <> L2 -> translations m2 !! L1 = Some t1)
    /\ (forall k, k <> L1 -> k <> L2 -> translations m2 !! k = translations m !! k)
    /\ id m2 = id m /\ text m2 = text m /\ language m2 = language m
    /\ summary m2 = summary m.
Proof.
  intros Hi Hid Hfind H1 H2. cbn zeta.
  rewrite (run_handleTranslate _ _ _ _ _ _ _ Hfind), H1. cbn [fst messages].
  set (f := fun msg => if id msg =? messageId then with_translation msg L1 t1 else msg).
  assert (Hf : forall msg, id (f msg) = id msg).
  { intros msg. unfold f. destruct (id msg =? messageId); reflexivity. }
  assert (Hfind1 : find_message (List.map f (messages s)) messageId = Some (f m0)).
  { rewrite find_message_map, Hfind; auto. }
  rewrite (run_handleTranslate _ _ _ _ _ _ _ Hfind1).
  assert (Htext : text (f m0) = text m0).
  { unfold f. destruct (id m0 =? messageId); reflexivity. }
  rewrite Htext, H2. cbn [fst messages].
  rewrite !lookup_map, Hi. cbn [fmap option_fmap option_map].
  unfold f. rewrite Hid, Z.eqb_refl.
  change (id (with_translation m L1 t1)) with (id m). rewrite Hid, Z.eqb_refl.
  eexists. split; [reflexivity|]. cbn.
  split; [apply lookup_insert_eq|].
  split; [intros Hne; rewrite lookup_insert_ne by congruence; apply lookup_insert_eq|].
  split; [|repeat split; auto].
  intros k Hk1 Hk2. rewrite !lookup_insert_ne by congruence. reflexivity.
Qed.

Lemma translate_twice_witness :
  let o1 := service 200 (inr (JObj [(js "translation", JStr (js "Hola mundo"))])) in
  let o2 := service 200 (inr (JObj [(js "translation", JStr (js "Bonjour le monde"))])) in
  let s1 := fst (run o1 (handleTranslate v8_fault_message (messages hello_state)
                           1700000000000 (js "es")) hello_state) in
  let s2 := fst (run o2 (handleTranslate v8_fault_message (messages s1)
                           1700000000000 (js "fr")) s1) in
  messages hello_state !! 0%nat = Some hello_message
  /\ id hello_message = 1700000000000
  /\ find_message (messages hello_state) 1700000000000 = Some hello_message
  /\ outcome o1 (translateText v8_fault_message (text hello_message) (js "es"))
       = inr (JStr (js "Hola mundo"))
  /\ outcome o2 (translateText v8_fault_message (text hello_message) (js "fr"))
       = inr (JStr (js "Bonjour le monde"))
  /\ js "es" <> js "fr"
  /\ exists m2, messages s2 !! 0%nat = Some m2
       /\ translations m2 !! js "fr" = Some (JStr (js "Bonjour le monde"))
       /\ translations m2 !! js "es" = Some (JStr (js "Hola mundo")).
Proof.
  intros o1 o2 s1 s2.
  assert (Hne : js "es" <> js "fr") by discriminate.
  destruct (translate_twice v8_fault_message o1 o2 hello_state 1700000000000 0
              hello_message hello_message (js "es") (js "fr")
              (JStr (js "Hola mundo")) (JStr (js "Bonjour le monde"))
              eq_refl eq_refl eq_refl eq_refl eq_refl)
    as [m2 [Hm2 [Hfr [Hes _]]]].
  split; [reflexivity|]. split; [reflexivity|]. split; [reflexivity|].
  split; [reflexivity|]. split; [reflexivity|]. split; [exact Hne|].
  exists m2. split; [exact Hm2|]. split; [exact Hfr | exact (Hes Hne)].
Defined.

(** The scenario of the specification: translating to Spanish twice leaves one
    entry, holding the second result. *)
Example translate_overwrites :
  let o1 := service 200 (inr (JObj [(js "translation", JStr (js "Hola mundo"))])) in
  let o2 := service 200 (inr (JObj [(js "translation", JStr (js "Hola mundo!"))])) in
  let s1 := fst (run o1 (handleTranslate v8_fault_message (messages hello_state)
                           1700000000000 (js "es")) hello_state) in
  let s2 := fst (run o2 (handleTranslate v8_fault_message (messages s1)
                           1700000000000 (js "es")) s1) in
  translations <$> messages s1 = [ {[ js "es" := JStr (js "Hola mundo") ]} ]
  /\ translations <$> messages s2 = [ {[ js "es" := JStr (js "Hola mundo!") ]} ].
Proof.
  cbn zeta. split.
  - reflexivity.
  - reflexivity.
Qed.

(** ** The translation request *)

(** C8. Whatever the message is, and so whatever its [language], the only
    [fetch] of a translate call goes to the address whose source-language
    segment is [en], followed by the target code and the encoded text; and
    whenever the message is found and its text encodes, that request is the
    first thing the call awaits. *)
Theorem translate_request_source_is_english (fault_message : fault -> jsstring)
    (o : oracle) (msgs : list Message) (messageId : Z) (targetLang : jsstring) :
  let address component :=
    js "https://lingva.ml/api/v1/" ++ js "en" ++ js "/" ++ targetLang
      ++ js "/" ++ component in
  let awaited := requests o (handleTranslate fault_message msgs messageId targetLang) in
  (forall url, In (fetch url) awaited ->
     exists m component,
       find_message msgs messageId = Some m
       /\ encodeURIComponent (text m) = Some component
       /\ url = address component)
  /\ (forall m component,
        find_message msgs messageId = Some m ->
        encodeURIComponent (text m) = Some component ->
        head awaited = Some (fetch (address component))).
Proof.
  cbn zeta. unfold handleTranslate, translateText. split.
  - intros url. destruct (find_message msgs messageId) as [m|]; cbn; [|tauto].
    destruct (encodeURIComponent (text m)) as [component|] eqn:Henc; cbn; [|tauto].
    intros [Hurl|Hin].
    + inversion Hurl. exists m, component. repeat split; auto.
    + exfalso. destruct (o (fetch _)) as [e|[[] st]]; cbn in Hin; auto.
      destruct Hin as [Hin|Hin]; [discriminate|].
      destruct (o response_json) as [e|[]]; cbn in Hin; auto.
  - intros m component -> . cbn. intros ->. reflexivity.
Qed.

Lemma translate_request_source_is_english_witness :
  let o := service 200 (inr (JObj [(js "translation", JStr (js "Hola mundo"))])) in
  let spanish_message :=
    {| id := 7; text := js "Hola"; language := Some (js "es");
       translations := ∅; summary := None |} in
  let url := js "https://lingva.ml/api/v1/en/fr/Hola" in
  In (fetch url)
    (requests o (handleTranslate v8_fault_message [spanish_message] 7 (js "fr")))
  /\ exists m component,
       find_message [spanish_message] 7 = Some m
       /\ encodeURIComponent (text m) = Some component
       /\ url = js "https://lingva.ml/api/v1/" ++ js "en" ++ js "/" ++ js "fr"
                  ++ js "/" ++ component.
Proof.
  intros o spanish_message url.
  assert (Hin : In (fetch url)
            (requests o (handleTranslate v8_fault_message [spanish_message] 7 (js "fr"))))
    by (left; reflexivity).
  split; [exact Hin|].
  exact (proj1 (translate_request_source_is_english v8_fault_message o
                  [spanish_message] 7 (js "fr")) url Hin).
Defined.

(** ** A message id that matches no message *)

(** C10. When no message has the given id, [find] returns [undefined], reading
    its [text] throws before the helper is called: nothing is awaited, the
    message list is unchanged, [loading] is cleared and [error] is the
    engine's message for that read, not one of the two generic strings.  When
    a message has the id, [error] never ends up with that message; and the id
    of any message of the list is found. *)
Theorem missing_message_fails_early (fault_message : fault -> jsstring)
    (o : oracle) (s : State) (messageId : Z) (window_ai : bool)
    (targetLang : jsstring) :
  let lookup_error := fault_message (read_of_undefined (js "text")) in
  let summarize := handleSummarize fault_message (messages s) window_ai messageId in
  let translate := handleTranslate fault_message (messages s) messageId targetLang in
  lookup_error <> js "Summarization failed" ->
  lookup_error <> js "Translation failed." ->
  (find_message (messages s) messageId = None ->
     requests o summarize = [] /\ requests o translate = []
     /\ messages (fst (run o summarize s)) = messages s
     /\ messages (fst (run o translate s)) = messages s
     /\ loading (fst (run o summarize s)) = false
     /\ loading (fst (run o translate s)) = false
     /\ error (fst (run o summarize s)) = Some lookup_error
     /\ error (fst (run o translate s)) = Some lookup_error
     /\ error (fst (run o summarize s)) <> Some (js "Summarization failed")
     /\ error (fst (run o translate s)) <> Some (js "Translation failed."))
  /\ (forall m, find_message (messages s) messageId = Some m ->
        error (fst (run o summarize s)) <> Some lookup_error
        /\ error (fst (run o translate s)) <> Some lookup_error)
  /\ (forall m, In m (messages s) -> find_message (messages s) (id m) <> None).
Proof.
  cbn zeta. intros Hs Ht. split; [|split].
  - intros Hfind. unfold handleSummarize, handleTranslate. rewrite Hfind. cbn.
    repeat split; congruence.
  - intros m Hfind.
    rewrite (run_handleSummarize _ _ _ _ _ _ _ Hfind).
    rewrite (run_handleTranslate _ _ _ _ _ _ _ Hfind). split.
    + destruct (outcome o (summarizeText _ _ _)) as [e|r] eqn:E; cbn; [|discriminate].
      apply summarizeText_rejection in E. subst e. cbn. congruence.
    + destruct (outcome o (translateText _ _ _)) as [e|r] eqn:E; cbn; [|discriminate].
      apply translateText_rejection in E. subst e. cbn. congruence.
  - intros m Hin. destruct (find_message_In _ _ Hin) as [m0 [Hm0 _]]. congruence.
Qed.

Lemma missing_message_fails_early_witness :
  let o := service 200 (inr (JObj [(js "translation", JStr (js "Hola mundo"))])) in
  let lookup_error := js "Cannot read properties of undefined (reading 'text')" in
  let summarize := handleSummarize v8_fault_message (messages hello_state) true 42 in
  let translate := handleTranslate v8_fault_message (messages hello_state) 42 (js "es") in
  v8_fault_message (read_of_undefined (js "text")) = lookup_error
  /\ lookup_error <> js "Summarization failed"
  /\ lookup_error <> js "Translation failed."
  /\ find_message (messages hello_state) 42 = None
  /\ requests o summarize = [] /\ requests o translate = []
  /\ error (fst (run o summarize hello_state)) = Some lookup_error
  /\ error (fst (run o translate hello_state)) = Some lookup_error.
Proof.
  intros o lookup_error summarize translate.
  assert (H1 : v8_fault_message (read_of_undefined (js "text")) <> js "Summarization failed")
    by discriminate.
  assert (H2 : v8_fault_message (read_of_undefined (js "text")) <> js "Translation failed.")
    by discriminate.
  destruct (missing_message_fails_early v8_fault_message o hello_state 42 true
              (js "es") H1 H2) as [Hmissing _].
  destruct (Hmissing eq_refl) as [R1 [R2 [_ [_ [_ [_ [E1 [E2 _]]]]]]]].
  split; [reflexivity|]. split; [exact H1|]. split; [exact H2|].
  split; [reflexivity|]. split; [exact R1|]. split; [exact R2|].
  split; [exact E1 | exact E2].
Defined.

(** ** Invariants of the page *)

Section PageInvariants.

Variable fault_message : fault -> jsstring.

Lemma advance_preserves I p s others :
  I s -> preserves I p -> Forall (preserves I) others ->
  I (ui (advance p s others))
  /\ Forall (preserves I) (pending (advance p s others)).
Proof.
  intros Hs Hp Ho. unfold advance.
  destruct (preserves_exec I p s Hp Hs) as [Hs' Hp'].
  destruct (exec p s) as [s' p']. cbn in *. split; [exact Hs'|].
  apply Forall_app. split; [exact Ho|].
  destruct p'; cbn; auto.
Qed.

Lemma handleSend_preserves P input now :
  (forall now input, P {| id := now; text := input; language := None;
                          translations := ∅; summary := None |}) ->
  preserves (every_message P)
    (handleSend input now;; call (setWelcomeMessage false)).
Proof.
  intros Hnew. unfold handleSend.
  destruct (truthy_string (trim input)); cbn; auto.
  repeat split; auto.
  intros s Hs m. cbn. rewrite in_app_iff. cbn.
  intros [Hm|[<-|[]]]; auto.
Qed.

Lemma preserves_handler P msgs messageId (result : Type) (work : jsstring -> prog result)
    (update : result -> Message -> Message) :
  (forall text, silent (work text)) ->
  (forall r m, P m -> P (update r m)) ->
  preserves (every_message P)
    (call (setLoading true);;
     call (setError None);;
     try_finally
       (try_catch
          (text ← text_of fault_message (find_message msgs messageId);
           r ← work text;
           call (setMessages (fun prevMessages =>
             List.map (fun msg =>
               if id msg =? messageId then update r msg else msg) prevMessages)))
          (fun err => call (setError (Some (message err)))))
       (call (setLoading false))).
Proof.
  intros Hsilent Hupdate. cbn. split; [auto|]. split; [auto|].
  apply preserves_try_finally; [|cbn; auto].
  apply preserves_try_catch; [|cbn; auto].
  apply preserves_bind.
  - destruct (find_message msgs messageId); cbn; auto.
  - intros text. apply preserves_bind; [apply preserves_silent, Hsilent|].
    intros r. cbn. split; [|auto].
    intros s Hs m. cbn. rewrite in_map_iff. intros [m0 [<- Hm0]].
    destruct (id m0 =? messageId); auto.
Qed.

Lemma handleSummarize_preserves P msgs window_ai messageId :
  (forall summary m, P m -> P (with_summary m summary)) ->
  preserves (every_message P)
    (handleSummarize fault_message msgs window_ai messageId).
Proof.
  intros Hupdate.
  apply (preserves_handler P msgs messageId jsstring
           (summarizeText fault_message window_ai)
           (fun summary m => with_summary m summary)); auto.
  intros text. apply silent_summarizeText.
Qed.

Lemma handleTranslate_preserves P msgs messageId targetLang :
  (forall translation m, P m -> P (with_translation m targetLang translation)) ->
  preserves (every_message P)
    (handleTranslate fault_message msgs messageId targetLang).
Proof.
  intros Hupdate.
  apply (preserves_handler P msgs messageId json
           (fun text => translateText fault_message text targetLang)
           (fun translation m => with_translation m targetLang translation)); auto.
  intros text. apply silent_translateText.
Qed.

(** A property of messages that new messages have and that the two updates
    keep, the translate update for the targets in [allowed], holds on every
    page reached by events whose translate targets are in [allowed]. *)
Lemma every_message_invariant (P : Message -> Prop) (allowed : jsstring -> Prop) :
  (forall now input, P {| id := now; text := input; language := None;
                          translations := ∅; summary := None |}) ->
  (forall summary m, P m -> P (with_summary m summary)) ->
  (forall targetLang translation m,
     allowed targetLang -> P m -> P (with_translation m targetLang translation)) ->
  forall es w w',
    (forall i v, In (language_select i v) es -> allowed v) ->
    every_message P (ui w) ->
    Forall (preserves (every_message P)) (pending w) ->
    fire_all fault_message w es = Some w' ->
    every_message P (ui w')
    /\ Forall (preserves (every_message P)) (pending w').
Proof.
  intros Hnew Hsum Htr es. induction es as [|e es IH]; intros w w' Hall Hw Hp; cbn.
  - intros [= <-]. auto.
  - destruct (fire fault_message w e) as [w1|] eqn:Hfire; [|discriminate].
    intros Hrest.
    assert (Hgoal : every_message P (ui w1)
                    /\ Forall (preserves (every_message P)) (pending w1)).
    { clear IH Hrest.
      destruct e as [v|now|i window_ai|i value|i o]; cbn in Hfire.
      - injection Hfire as <-. cbn. auto.
      - destruct (send_disabled (ui w)); [discriminate|].
        injection Hfire as <-.
        apply advance_preserves; auto. apply handleSend_preserves, Hnew.
      - destruct (messages (ui w) !! i) as [m|]; [|discriminate].
        destruct (_ && _); [|discriminate]. injection Hfire as <-.
        apply advance_preserves; auto. apply handleSummarize_preserves, Hsum.
      - destruct (messages (ui w) !! i) as [m|]; [|discriminate].
        destruct (_ && _); [|discriminate]. injection Hfire as <-.
        apply advance_preserves; auto. apply handleTranslate_preserves.
        intros translation m0. apply Htr. apply (Hall i value). left. reflexivity.
      - destruct (pending w !! i) as [[a|e|u k|r k]|] eqn:Hi; try discriminate.
        injection Hfire as <-.
        apply advance_preserves; auto.
        + rewrite Forall_lookup in Hp. apply (Hp i _ Hi).
        + apply Forall_delete, Hp. }
    destruct Hgoal as [Hw1 Hp1]. apply (IH w1 w'); auto.
    intros i v Hin. apply (Hall i v). right. exact Hin.
Qed.

End PageInvariants.

(** ** The translations' keys *)

(** C2, as the code has it.  [handleTranslate] does not check its target, so
    the keys of a message's translations are the targets of the translate
    calls made for it: on every page reached by events whose translate
    targets are among the six configured codes, every message's translations
    have keys among those six codes only. *)
Theorem translations_keys_configured (fault_message : fault -> jsstring)
    (es : list ui_event) (w : World) :
  reachable_by fault_message es w ->
  (forall i value, In (language_select i value) es -> In value language_codes) ->
  forall m k, In m (messages (ui w)) ->
    is_Some (translations m !! k) -> In k language_codes.
Proof.
  intros Hreach Hvalid m k Hm.
  destruct (every_message_invariant fault_message configured_keys
              (fun v => In v language_codes)) with (es := es) (w := initial_world) (w' := w)
    as [Hinv _]; auto.
  - intros now input k' [v Hv]. cbn [translations] in Hv.
    rewrite lookup_empty in Hv. discriminate.
  - intros targetLang translation m0 Hin Hm0 k'. cbn [translations with_translation].
    destruct (decide (targetLang = k')) as [<-|Hne]; [auto|].
    rewrite lookup_insert_ne by exact Hne. apply Hm0.
  - intros m0 [].
  - exact (Hinv m Hm k).
Qed.

Lemma translations_keys_configured_witness :
  let o := service 200 (inr (JObj [(js "translation", JStr (js "Hola mundo"))])) in
  let es := [ input_change (js "Hello world"); send_click 1700000000000;
              language_select 0 (js "es"); promise_settles 0 o; promise_settles 0 o ] in
  exists w m,
    reachable_by v8_fault_message es w
    /\ (forall i value, In (language_select i value) es -> In value language_codes)
    /\ In m (messages (ui w))
    /\ translations m !! js "es" = Some (JStr (js "Hola mundo"))
    /\ In (js "es") language_codes.
Proof.
  intros o es.
  assert (Hvalid : forall i value,
            In (language_select i value) es -> In value language_codes).
  { intros i value [H|[H|[H|[H|[H|[]]]]]]; try discriminate.
    injection H as _ <-. right. right. left. reflexivity. }
  eexists. eexists.
  split; [reflexivity|]. split; [exact Hvalid|].
  split; [left; reflexivity|]. split; [reflexivity|].
  eapply (translations_keys_configured v8_fault_message es _ eq_refl Hvalid _ (js "es")).
  - left. reflexivity.
  - eexists. reflexivity.
Defined.

(** C2 fails on the code: the select's placeholder has the value [""], and
    choosing it again calls [handleTranslate] with that value; when the
    service answers, the empty string becomes a key of the translations. *)
Lemma placeholder_becomes_a_key :
  exists w m,
    reachable_by v8_fault_message placeholder_events w
    /\ In m (messages (ui w))
    /\ translations m !! js "" = Some (JStr (js "Hola mundo"))
    /\ ~ In (js "") language_codes.
Proof.
  eexists. eexists. split; [reflexivity|]. split; [left; reflexivity|].
  split; [reflexivity|].
  intros H. repeat (destruct H as [H|H]; [discriminate|]). exact H.
Qed.

(** ** The language of a message *)

(** C9. On every page the events can lead to, no message has a [language]:
    [handleSend] creates messages without one and the two updates copy the
    message as it is.  So the condition under which the Summarize button is
    rendered is false for every message. *)
Theorem language_never_populated (fault_message : fault -> jsstring)
    (es : list ui_event) (w : World) :
  reachable_by fault_message es w ->
  forall m, In m (messages (ui w)) ->
    language m = None /\ summarize_offered m = false.
Proof.
  intros Hreach m Hm.
  destruct (every_message_invariant fault_message (fun m => language m = None)
              (fun _ => True)) with (es := es) (w := initial_world) (w' := w)
    as [Hinv _]; auto.
  - intros m0 [].
  - assert (Hlang : language m = None) by exact (Hinv m Hm).
    split; [exact Hlang|]. unfold summarize_offered. rewrite Hlang. reflexivity.
Qed.

Lemma language_never_populated_witness :
  exists w m,
    reachable_by v8_fault_message placeholder_events w
    /\ In m (messages (ui w))
    /\ language m = None /\ summarize_offered m = false.
Proof.
  eexists. eexists. split; [reflexivity|]. split; [left; reflexivity|].
  eapply (language_never_populated v8_fault_message placeholder_events _ eq_refl).
  left. reflexivity.
Defined.

(** ** The busy flag *)

Section Busy.

Variable fault_message : fault -> jsstring.

Lemma handleSend_busy input now :
  trim input <> [] ->
  exists k, handleSend input now = Do (setLoading true) k /\ busy_then_idle k.
Proof.
  intros Hne. unfold handleSend.
  destruct (trim input); [congruence|]. cbn.
  eexists. split; reflexivity.
Qed.

Lemma handleSummarize_busy msgs window_ai messageId :
  exists k, handleSummarize fault_message msgs window_ai messageId
            = Do (setLoading true) k /\ busy_then_idle k.
Proof.
  eexists. split; [reflexivity|]. cbn.
  destruct (find_message msgs messageId); cbn; [|reflexivity].
  unfold summarizeText. destruct window_ai; cbn; [|reflexivity].
  intros [e|[|[]]]; cbn; try reflexivity.
  intros [e|summary]; reflexivity.
Qed.

Lemma handleTranslate_busy msgs messageId targetLang :
  exists k, handleTranslate fault_message msgs messageId targetLang
            = Do (setLoading true) k /\ busy_then_idle k.
Proof.
  eexists. split; [reflexivity|]. cbn.
  destruct (find_message msgs messageId) as [m|]; cbn; [|reflexivity].
  unfold translateText. destruct (encodeURIComponent (text m)); cbn; [|reflexivity].
  intros [e|[[] st]]; cbn; try reflexivity.
  intros [e|[]]; reflexivity.
Qed.

(** A run that keeps the flag and then clears it is suspended only while
    the flag is set. *)
Lemma busy_then_idle_until_end (p : prog unit) :
  busy_then_idle p -> busy_until_end true p.
Proof.
  induction p as [a|e|u k IH|r k IH]; cbn; try contradiction.
  - destruct u as [f|v|[]|v|v]; auto. intros ->. reflexivity.
  - auto.
Qed.

Lemma busy_until_end_started (p k : prog unit) b :
  p = Do (setLoading true) k -> busy_then_idle k -> busy_until_end b p.
Proof. intros -> Hk. cbn. apply busy_then_idle_until_end, Hk. Qed.

Lemma advance_busy p s :
  busy_until_end (loading s) p -> busy_iff_pending (advance p s []).
Proof.
  intros Hp. apply busy_until_end_exec in Hp. unfold advance, busy_iff_pending.
  destruct (exec p s) as [s' p']. cbn in *.
  destruct p' as [a|e|u k|r k]; cbn; auto.
  right. exists (Await r k). cbn. tauto.
Qed.

Lemma fire_busy w e w' :
  busy_iff_pending w -> fire fault_message w e = Some w' -> busy_iff_pending w'.
Proof.
  intros Hw Hfire.
  assert (Hidle : loading (ui w) = false -> pending w = []).
  { intros Hl. destruct Hw as [[Hp _]|[p [_ [_ [Ht _]]]]]; [exact Hp|congruence]. }
  destruct e as [v|now|i window_ai|i value|i o]; cbn in Hfire.
  - injection Hfire as <-. exact Hw.
  - unfold send_disabled in Hfire.
    destruct (loading (ui w)) eqn:Hl; [discriminate|]. cbn in Hfire.
    destruct (truthy_string (trim (inputText (ui w)))) eqn:Ht; [|discriminate].
    injection Hfire as <-. rewrite (Hidle eq_refl).
    apply advance_busy. rewrite Hl. unfold handleSend. rewrite Ht. reflexivity.
  - destruct (messages (ui w) !! i) as [m|]; [|discriminate].
    destruct (loading (ui w)) eqn:Hl;
      [rewrite andb_false_r in Hfire; discriminate|].
    destruct (summarize_offered m); [|discriminate]. injection Hfire as <-.
    rewrite (Hidle eq_refl). apply advance_busy.
    destruct (handleSummarize_busy (messages (ui w)) window_ai (id m)) as [k [Hk Hb]].
    exact (busy_until_end_started _ _ _ Hk Hb).
  - destruct (messages (ui w) !! i) as [m|]; [|discriminate].
    destruct (loading (ui w)) eqn:Hl;
      [rewrite andb_false_r in Hfire; discriminate|].
    destruct (bool_decide _); [|discriminate]. injection Hfire as <-.
    rewrite (Hidle eq_refl). apply advance_busy.
    destruct (handleTranslate_busy (messages (ui w)) (id m) value) as [k [Hk Hb]].
    exact (busy_until_end_started _ _ _ Hk Hb).
  - destruct (pending w !! i) as [[a|e|u k|r k]|] eqn:Hi; try discriminate.
    injection Hfire as <-.
    destruct Hw as [[Hp _]|[p [Hp [_ [Hl Hb]]]]].
    + rewrite Hp in Hi. discriminate.
    + rewrite Hp in Hi. destruct i as [|i]; [|discriminate].
      injection Hi as ->. rewrite Hp. cbn [delete list_delete].
      apply advance_busy. rewrite Hl. apply Hb.
Qed.

Lemma fire_all_busy es w w' :
  busy_iff_pending w -> fire_all fault_message w es = Some w' ->
  busy_iff_pending w'.
Proof.
  revert w. induction es as [|e es IH]; intros w Hw; cbn.
  - intros [= <-]. exact Hw.
  - destruct (fire fault_message w e) as [w1|] eqn:Hfire; [|discriminate].
    apply IH. exact (fire_busy _ _ _ Hw Hfire).
Qed.

End Busy.

(** C7. Each of the three operations, when it does anything, starts by
    setting [loading], keeps it set through all its setter calls and all its
    suspensions, and ends by clearing it, on success and on failure alike.
    On every page the events can lead to, at most one operation is suspended,
    and [loading] is true exactly while one is. *)
Theorem busy_while_pending (fault_message : fault -> jsstring) :
  (forall input now, trim input <> [] ->
     exists k, handleSend input now = Do (setLoading true) k /\ busy_then_idle k)
  /\ (forall msgs window_ai messageId,
        exists k, handleSummarize fault_message msgs window_ai messageId
                  = Do (setLoading true) k /\ busy_then_idle k)
  /\ (forall msgs messageId targetLang,
        exists k, handleTranslate fault_message msgs messageId targetLang
                  = Do (setLoading true) k /\ busy_then_idle k)
  /\ (forall es w, reachable_by fault_message es w ->
        (length (pending w) <= 1)%nat
        /\ (loading (ui w) = true <-> pending w <> [])).
Proof.
  split; [apply handleSend_busy|].
  split; [apply handleSummarize_busy|].
  split; [apply handleTranslate_busy|].
  intros es w Hreach.
  assert (Hw : busy_iff_pending w).
  { apply (fire_all_busy fault_message es initial_world); [|exact Hreach].
    left. split; reflexivity. }
  destruct Hw as [[Hp Hl]|[p [Hp [_ [Hl _]]]]]; rewrite Hp, Hl; cbn.
  - split; [lia|]. split; [discriminate|congruence].
  - split; [lia|]. split; [discriminate|reflexivity].
Qed.

Lemma busy_while_pending_witness :
  let es := [ input_change (js "Hello world"); send_click 1700000000000;
              language_select 0 (js "es") ] in
  (trim (js "Hello world") <> []
   /\ exists k, handleSend (js "Hello world") 1700000000000 = Do (setLoading true) k
                /\ busy_then_idle k)
  /\ exists w, reachable_by v8_fault_message es w
       /\ loading (ui w) = true
       /\ (length (pending w) <= 1)%nat
       /\ (loading (ui w) = true <-> pending w <> []).
Proof.
  intros es.
  destruct (busy_while_pending v8_fault_message) as [Hsend [_ [_ Hpage]]].
  assert (Hne : trim (js "Hello world") <> []) by (vm_compute; discriminate).
  split.
  - split; [exact Hne|]. exact (Hsend (js "Hello world") 1700000000000 Hne).
  - eexists. split; [reflexivity|]. split; [reflexivity|].
    exact (Hpage es _ eq_refl).
Defined.

(** ** The scenarios of the specification, on the page *)

(** Submit, translate to Spanish, translate to Spanish again: one message,
    no summary, and one translation that holds the second answer. *)
Example scenario_submit_then_translate :
  let answers t := service 200 (inr (JObj [(js "translation", JStr t)])) in
  fire_all v8_fault_message initial_world
    [ input_change (js "Hello world"); send_click 1700000000000;
      language_select 0 (js "es");
      promise_settles 0 (answers (js "Hola mundo")); promise_settles 0 (answers (js "Hola mundo"));
      language_select 0 (js "es");
      promise_settles 0 (answers (js "Hola mundo!")); promise_settles 0 (answers (js "Hola mundo!")) ]
  = Some {| ui := {| messages :=
                       [ {| id := 1700000000000; text := js "Hello world";
                            language := None;
                            translations := {[ js "es" := JStr (js "Hola mundo!") ]};
                            summary := None |} ];
                     inputText := js ""; loading := false; error := None;
                     welcomeMessage := false |};
            pending := [] |}.
Proof. reflexivity. Qed.

(** The service answers 500: the message is unchanged and the error is the
    generic one. *)
Example scenario_status_500 :
  let failing := service 500 (inl (Error (js "no body"))) in
  fire_all v8_fault_message initial_world
    [ input_change (js "Hello world"); send_click 1700000000000;
      language_select 0 (js "fr"); promise_settles 0 failing ]
  = Some {| ui := {| messages := [hello_message]; inputText := js "";
                     loading := false; error := Some (js "Translation failed.");
                     welcomeMessage := false |};
            pending := [] |}.
Proof. reflexivity. Qed.

(** The summarizer is not available: the message is unchanged and the error
    is the generic one. *)
Example scenario_summarizer_unavailable :
  let o := service 200 (inr JNull) in
  fst (run o (handleSummarize v8_fault_message (messages hello_state) false
                1700000000000) hello_state)
  = {| messages := [hello_message]; inputText := js ""; loading := false;
       error := Some (js "Summarization failed"); welcomeMessage := false |}.
Proof. reflexivity. Qed.

(** While the request is in flight the page is busy and its controls are
    disabled: no second operation can start. *)
Example scenario_busy_page_refuses :
  let es := [ input_change (js "Hello world"); send_click 1700000000000;
              language_select 0 (js "es") ] in
  forall w, fire_all v8_fault_message initial_world es = Some w ->
    loading (ui w) = true
    /\ fire v8_fault_message w (language_select 0 (js "fr")) = None
    /\ forall now, fire v8_fault_message
                     {| ui := apply_setter (setInputText (js "more")) (ui w);
                        pending := pending w |} (send_click now) = None.
Proof.
  intros es w [= <-]. repeat split; reflexivity.
Qed.

(** * Further properties of the page *)

(** ** Runs seen at their suspensions *)

Lemma keeps_exec {A} I (p : prog A) s :
  keeps I p s ->
  I (fst (exec p s))
  /\ match snd (exec p s) with
     | Await r k => forall x s', I s' -> keeps I (k x) s'
     | _ => True
     end.
Proof.
  revert s. induction p as [a|e|u k IH|r k IH]; intros s Hp; cbn in *; auto.
Qed.

(** What is left of a run after its leading setter calls does not depend on
    the state. *)
Lemma exec_rest {A} (p : prog A) s s' : snd (exec p s) = snd (exec p s').
Proof.
  revert s s'. induction p as [a|e|u k IH|r k IH]; intros s s'; cbn; auto.
Qed.

Lemma fallback_truthy (translation : option json) :
  truthy (match translation with
          | Some t => if truthy t then t else JStr (js "Translation failed.")
          | None => JStr (js "Translation failed.")
          end) = true.
Proof.
  destruct translation as [t|]; [|reflexivity].
  destruct (truthy t) eqn:E; [exact E | reflexivity].
Qed.

Section Shapes.

Variable fault_message : fault -> jsstring.

(** A translate call for a message that exists either fails at once, or is
    suspended right after its start and can then only end as a failed or as a
    successful translation. *)
Lemma handleTranslate_shape I msgs messageId targetLang m s s1 p1 :
  find_message msgs messageId = Some m ->
  In targetLang select_values ->
  settling I ->
  exec (handleTranslate fault_message msgs messageId targetLang) s = (s1, p1) ->
  match p1 with
  | Await r k => s1 = begun s /\ forall x s', I s' -> keeps I (k x) s'
  | Ret _ => s1 = failed (js "Translation failed.") (begun s)
  | _ => False
  end.
Proof.
  intros Hfind Hlang [Hfail Hok]. unfold handleTranslate. rewrite Hfind.
  unfold translateText. cbn.
  destruct (encodeURIComponent (text m)) as [component|]; cbn;
    intros [= <- <-]; [|reflexivity].
  split; [reflexivity|].
  intros [e|[[] st]] s' Hs'; cbn; try (apply Hfail; exact Hs').
  split; [exact Hs'|].
  intros [e|data] s'' Hs''; cbn; try (apply Hfail; exact Hs'').
  destruct data; cbn; try (apply Hfail; exact Hs'');
    apply Hok; auto; apply fallback_truthy.
Qed.

(** An accepted send runs to its end at once. *)
Lemma exec_send s now :
  send_disabled s = false ->
  exec (handleSend (inputText s) now;; call (setWelcomeMessage false)) s
  = (submitted now s, Ret tt).
Proof.
  unfold send_disabled, handleSend. intros H.
  apply orb_false_elim in H as [_ H]. rewrite H. reflexivity.
Qed.

(** With no [language], no Summarize button. *)
Lemma not_offered m : language m = None -> summarize_offered m = false.
Proof. unfold summarize_offered. intros ->. reflexivity. Qed.

Lemma settling_language :
  settling (every_message (fun m => language m = None)).
Proof.
  split.
  - intros s Hs. exact Hs.
  - intros s messageId targetLang translation Hs _ _ m. cbn.
    rewrite in_map_iff. intros [m0 [<- Hm0]].
    destruct (id m0 =? messageId); cbn; auto.
Qed.

(** One event: what it does to the state cells, and that the suspended runs
    stay translate runs. *)
Lemma fire_shape w e w' :
  every_message (fun m => language m = None) (ui w) ->
  translate_runs w ->
  fire fault_message w e = Some w' ->
  translate_runs w'
  /\ match e with
     | input_change v => ui w' = apply_setter (setInputText v) (ui w)
     | send_click now =>
         send_disabled (ui w) = false /\ ui w' = submitted now (ui w)
     | _ =>
         forall I, settling I ->
           (loading (ui w) = false -> I (begun (ui w))) ->
           I (ui w) -> I (ui w')
     end.
Proof.
  intros Hlang Hruns Hfire.
  destruct e as [v|now|i window_ai|i value|i o];
    lazy beta iota delta [fire] in Hfire.
  - injection Hfire as <-. auto.
  - destruct (send_disabled (ui w)) eqn:Hd; [discriminate|].
    injection Hfire as <-. unfold advance. rewrite (exec_send _ _ Hd). cbn.
    rewrite app_nil_r. auto.
  - destruct (messages (ui w) !! i) as [m|] eqn:Hi; [|discriminate].
    rewrite (not_offered m) in Hfire; [discriminate|].
    apply Hlang. apply list_elem_of_In, list_elem_of_lookup. eauto.
  - destruct (messages (ui w) !! i) as [m|] eqn:Hi; [|discriminate].
    destruct (bool_decide (value ∈ select_values)) eqn:Hv; [|discriminate].
    destruct (loading (ui w)) eqn:Hl; [discriminate|]. injection Hfire as <-.
    apply bool_decide_eq_true_1, list_elem_of_In in Hv.
    assert (Hin : In m (messages (ui w)))
      by (apply list_elem_of_In, list_elem_of_lookup; eauto).
    destruct (find_message_In _ _ Hin) as [m0 [Hfind _]].
    unfold advance, translate_runs.
    destruct (exec (handleTranslate fault_message (messages (ui w)) (id m) value) (ui w))
      as [s1 p1] eqn:He. cbn [ui pending].
    pose proof (fun I HI => handleTranslate_shape I _ _ _ _ _ _ _ Hfind Hv HI He)
      as Hshape.
    destruct p1 as [[]|e|u k|r k].
    + cbn. rewrite app_nil_r. split; [exact Hruns|].
      intros I HI Hbegin HIw. rewrite (Hshape I HI). apply HI. auto.
    + destruct (Hshape (fun _ => True)). split; auto.
    + destruct (Hshape (fun _ => True)). split; auto.
    + split.
      * apply Forall_app. split; [exact Hruns|]. constructor; [|constructor].
        intros I HI s Hs. cbn. split; [exact Hs|]. apply (Hshape I HI).
      * intros I HI Hbegin HIw. rewrite (proj1 (Hshape I HI)). auto.
  - destruct (pending w !! i) as [[a|e|u k|r k]|] eqn:Hi; try discriminate.
    injection Hfire as <-.
    assert (Hk : forall I, settling I -> resumable I (Await r k)).
    { unfold translate_runs in Hruns. rewrite Forall_lookup in Hruns.
      exact (Hruns i _ Hi). }
    unfold advance, translate_runs. split.
    + destruct (exec (k (o r)) (ui w)) as [s1 p1] eqn:He. cbn.
      apply Forall_app. split; [apply Forall_delete, Hruns|].
      destruct p1 as [a|e|u k1|r1 k1]; cbn; auto. constructor; [|constructor].
      intros I HI s Hs. cbn. split; [exact Hs|].
      destruct (Hk I HI s Hs) as [_ Hres].
      pose proof (proj2 (keeps_exec I (k (o r)) s (Hres (o r) s Hs))) as Hrest.
      rewrite (exec_rest (k (o r)) s (ui w)), He in Hrest. exact Hrest.
    + intros I HI _ HIw. destruct (Hk I HI (ui w) HIw) as [_ Hres].
      pose proof (proj1 (keeps_exec I _ _ (Hres (o r) (ui w) HIw))) as H1.
      destruct (exec (k (o r)) (ui w)) as [s1 p1]. exact H1.
Qed.

End Shapes.

Section PageProperties.

Variable fault_message : fault -> jsstring.

Lemma fire_all_shape es w w' :
  every_message (fun m => language m = None) (ui w) ->
  translate_runs w ->
  fire_all fault_message w es = Some w' ->
  every_message (fun m => language m = None) (ui w') /\ translate_runs w'.
Proof.
  revert w. induction es as [|e es IH]; intros w Hlang Hruns; cbn.
  - intros [= <-]. auto.
  - destruct (fire fault_message w e) as [w1|] eqn:Hfire; [|discriminate].
    destruct (fire_shape fault_message w e w1 Hlang Hruns Hfire) as [Hruns1 He].
    apply IH; [|exact Hruns1].
    destruct e as [v|now|i window_ai|i value|i o].
    + rewrite He. exact Hlang.
    + destruct He as [_ ->]. intros m. cbn. rewrite in_app_iff. cbn.
      intros [Hm|[<-|[]]]; auto.
    + apply (He _ settling_language); auto.
    + apply (He _ settling_language); auto.
    + apply (He _ settling_language); auto.
Qed.


(** A property of the state cells that typing, an accepted send, the start of
    an operation and the two ends of a translate run keep, is kept by every
    sequence of events. *)
Lemma page_invariant (I : State -> Prop) :
  (forall v s, I s -> I (apply_setter (setInputText v) s)) ->
  (forall s now, I s -> send_disabled s = false -> I (submitted now s)) ->
  (forall s, I s -> loading s = false -> I (begun s)) ->
  settling I ->
  forall es w w',
    every_message (fun m => language m = None) (ui w) ->
    translate_runs w ->
    I (ui w) ->
    fire_all fault_message w es = Some w' ->
    I (ui w').
Proof.
  intros Hinput Hsend Hbegin Hsettle es.
  induction es as [|e es IH]; intros w w' Hlang Hruns Hw; cbn.
  - intros [= <-]. exact Hw.
  - destruct (fire fault_message w e) as [w1|] eqn:Hfire; [|discriminate].
    destruct (fire_shape fault_message w e w1 Hlang Hruns Hfire) as [Hruns1 He].
    destruct (fire_all_shape [e] w w1 Hlang Hruns) as [Hlang1 _].
    { cbn. rewrite Hfire. reflexivity. }
    apply IH; auto.
    destruct e as [v|now|i window_ai|i value|i o].
    + rewrite He. auto.
    + destruct He as [Hd ->]. auto.
    + apply He; auto.
    + apply He; auto.
    + apply He; auto.
Qed.

Lemma reachable_invariant (I : State -> Prop) :
  I initial_state ->
  (forall v s, I s -> I (apply_setter (setInputText v) s)) ->
  (forall s now, I s -> send_disabled s = false -> I (submitted now s)) ->
  (forall s, I s -> loading s = false -> I (begun s)) ->
  settling I ->
  forall es w, reachable_by fault_message es w -> I (ui w).
Proof.
  intros H0 Hinput Hsend Hbegin Hsettle es w Hreach.
  apply (page_invariant I Hinput Hsend Hbegin Hsettle es initial_world w); auto.
  - intros m [].
  - constructor.
Qed.

End PageProperties.

(** ** The welcome banner *)

(** X1. The welcome banner is shown exactly as long as the message list is
    empty: the first accepted send removes it and nothing brings it back. *)
Theorem welcome_iff_no_message (fault_message : fault -> jsstring)
    (es : list ui_event) (w : World) :
  reachable_by fault_message es w ->
  (welcomeMessage (ui w) = true <-> messages (ui w) = []).
Proof.
  apply (reachable_invariant fault_message
           (fun s => welcomeMessage s = true <-> messages s = [])).
  - split; reflexivity.
  - intros v s Hs. exact Hs.
  - intros s now _ _. cbn. split; [discriminate|].
    intros H. apply app_eq_nil in H as [_ H]. discriminate.
  - intros s Hs _. exact Hs.
  - split.
    + intros s Hs. exact Hs.
    + intros s messageId targetLang translation Hs _ _. cbn.
      rewrite Hs. split; [intros ->; reflexivity|].
      intros H. destruct (messages s); [reflexivity|discriminate].
Qed.

Lemma welcome_iff_no_message_witness :
  exists w, reachable_by v8_fault_message placeholder_events w
    /\ welcomeMessage (ui w) = false
    /\ (welcomeMessage (ui w) = true <-> messages (ui w) = []).
Proof.
  eexists. split; [reflexivity|]. split; [reflexivity|].
  exact (welcome_iff_no_message v8_fault_message placeholder_events _ eq_refl).
Defined.

(** ** What the page can show of errors and summaries *)

(** X2. Whatever the events and the collaborators do, the error banner is
    absent or reads "Translation failed.": neither the summarizer's message
    nor an engine message ever reaches it. *)
Theorem error_is_translation_failed (fault_message : fault -> jsstring)
    (es : list ui_event) (w : World) :
  reachable_by fault_message es w ->
  error (ui w) = None \/ error (ui w) = Some (js "Translation failed.").
Proof.
  apply (reachable_invariant fault_message
           (fun s => error s = None \/ error s = Some (js "Translation failed."))).
  - left. reflexivity.
  - intros v s Hs. exact Hs.
  - intros s now _ _. left. reflexivity.
  - intros s _ _. left. reflexivity.
  - split.
    + intros s _. right. reflexivity.
    + intros s messageId targetLang translation Hs _ _. exact Hs.
Qed.

Lemma error_is_translation_failed_witness :
  let failing := service 500 (inl (Error (js "no body"))) in
  let es := [ input_change (js "Hello world"); send_click 1700000000000;
              language_select 0 (js "fr"); promise_settles 0 failing ] in
  exists w, reachable_by v8_fault_message es w
    /\ error (ui w) = Some (js "Translation failed.")
    /\ (error (ui w) = None \/ error (ui w) = Some (js "Translation failed.")).
Proof.
  intros failing es. eexists. split; [reflexivity|]. split; [reflexivity|].
  exact (error_is_translation_failed v8_fault_message es _ eq_refl).
Defined.

(** X3. No message ever gets a summary: the Summarize button is never
    rendered, so [handleSummarize] never runs and [summary] stays [null]. *)
Theorem summary_stays_null (fault_message : fault -> jsstring)
    (es : list ui_event) (w : World) :
  reachable_by fault_message es w ->
  forall m, In m (messages (ui w)) -> summary m = None.
Proof.
  apply (reachable_invariant fault_message
           (every_message (fun m => summary m = None))).
  - intros m [].
  - intros v s Hs. exact Hs.
  - intros s now Hs _ m. cbn. rewrite in_app_iff. cbn.
    intros [Hm|[<-|[]]]; auto.
  - intros s Hs _. exact Hs.
  - split.
    + intros s Hs. exact Hs.
    + intros s messageId targetLang translation Hs _ _ m. cbn.
      rewrite in_map_iff. intros [m0 [<- Hm0]].
      destruct (id m0 =? messageId); cbn; auto.
Qed.

Lemma summary_stays_null_witness :
  exists w m, reachable_by v8_fault_message placeholder_events w
    /\ In m (messages (ui w)) /\ summary m = None.
Proof.
  eexists. eexists. split; [reflexivity|]. split; [left; reflexivity|].
  eapply (summary_stays_null v8_fault_message placeholder_events _ eq_refl).
  left. reflexivity.
Defined.

(** X4. While the page is busy no error is shown: an operation clears the
    error when it starts and sets one only as it ends. *)
Theorem busy_page_shows_no_error (fault_message : fault -> jsstring)
    (es : list ui_event) (w : World) :
  reachable_by fault_message es w ->
  loading (ui w) = true -> error (ui w) = None.
Proof.
  apply (reachable_invariant fault_message
           (fun s => loading s = true -> error s = None)).
  - discriminate.
  - intros v s Hs. exact Hs.
  - intros s now _ _. discriminate.
  - intros s _ _ _. reflexivity.
  - split.
    + intros s _. discriminate.
    + intros s messageId targetLang translation _ _ _. discriminate.
Qed.

Lemma busy_page_shows_no_error_witness :
  let failing := service 500 (inl (Error (js "no body"))) in
  let es := [ input_change (js "Hello world"); send_click 1700000000000;
              language_select 0 (js "fr"); promise_settles 0 failing;
              language_select 0 (js "es") ] in
  exists w, reachable_by v8_fault_message es w
    /\ loading (ui w) = true /\ error (ui w) = None.
Proof.
  intros failing es. eexists. split; [reflexivity|]. split; [reflexivity|].
  exact (busy_page_shows_no_error v8_fault_message es _ eq_refl eq_refl).
Defined.

(** X5. A stored translation is never a falsy value: what the service sent
    if that is truthy, the fallback string otherwise. *)
Theorem translations_are_truthy (fault_message : fault -> jsstring)
    (es : list ui_event) (w : World) :
  reachable_by fault_message es w ->
  forall m k v, In m (messages (ui w)) ->
    translations m !! k = Some v -> truthy v = true.
Proof.
  intros Hreach m k v Hm.
  revert m Hm k v.
  change (every_message
            (fun m => forall k v, translations m !! k = Some v -> truthy v = true)
            (ui w)).
  revert es w Hreach.
  apply (reachable_invariant fault_message).
  - intros m [].
  - intros v s Hs. exact Hs.
  - intros s now Hs _ m. cbn. rewrite in_app_iff. cbn.
    intros [Hm|[<-|[]]]; [exact (Hs m Hm)|]. cbn [translations]. intros k v.
    rewrite lookup_empty. discriminate.
  - intros s Hs _. exact Hs.
  - split.
    + intros s Hs. exact Hs.
    + intros s messageId targetLang translation Hs _ Ht m. cbn.
      rewrite in_map_iff. intros [m0 [<- Hm0]].
      destruct (id m0 =? messageId); cbn [translations with_translation];
        [|exact (Hs m0 Hm0)].
      intros k v. destruct (decide (targetLang = k)) as [<-|Hne].
      * rewrite lookup_insert_eq. intros [= <-]. exact Ht.
      * rewrite lookup_insert_ne by exact Hne. apply Hs. exact Hm0.
Qed.

Lemma translations_are_truthy_witness :
  let o := service 200 (inr (JObj [(js "translation", JStr (js ""))])) in
  let es := [ input_change (js "Hello world"); send_click 1700000000000;
              language_select 0 (js "es"); promise_settles 0 o; promise_settles 0 o ] in
  exists w m, reachable_by v8_fault_message es w
    /\ In m (messages (ui w))
    /\ translations m !! js "es" = Some (JStr (js "Translation failed."))
    /\ truthy (JStr (js "Translation failed.")) = true.
Proof.
  intros o es. eexists. eexists. split; [reflexivity|]. split; [left; reflexivity|].
  split; [reflexivity|].
  eapply (translations_are_truthy v8_fault_message es _ eq_refl _ (js "es")).
  - left. reflexivity.
  - reflexivity.
Defined.

(** ** The message list as a record of the sends *)

Lemma sent_submitted now s :
  sent (submitted now s) = sent s ++ [(now, inputText s)].
Proof. unfold sent. cbn. rewrite map_app. reflexivity. Qed.

Lemma settling_sent l input :
  settling (fun s => sent s = l /\ inputText s = input).
Proof.
  split.
  - intros s Hs. exact Hs.
  - intros s messageId targetLang translation [Hl Hi] _ _. split; [|exact Hi].
    rewrite <- Hl. unfold sent. cbn. rewrite map_map. apply map_ext.
    intros msg. destruct (id msg =? messageId); reflexivity.
Qed.

Lemma sent_sends fault_message es w w' :
  every_message (fun m => language m = None) (ui w) ->
  translate_runs w ->
  fire_all fault_message w es = Some w' ->
  sent (ui w') = sent (ui w) ++ sends (inputText (ui w)) es.
Proof.
  revert w. induction es as [|e es IH]; intros w Hlang Hruns; cbn [fire_all].
  - intros [= <-]. cbn. rewrite app_nil_r. reflexivity.
  - destruct (fire fault_message w e) as [w1|] eqn:Hfire; [|discriminate].
    intros Hrest.
    destruct (fire_shape fault_message w e w1 Hlang Hruns Hfire) as [Hruns1 He].
    destruct (fire_all_shape fault_message [e] w w1 Hlang Hruns) as [Hlang1 _].
    { cbn. rewrite Hfire. reflexivity. }
    rewrite (IH w1 Hlang1 Hruns1 Hrest).
    destruct e as [v|now|i window_ai|i value|i o]; cbn [sends].
    + rewrite He. reflexivity.
    + destruct He as [_ ->]. rewrite sent_submitted, <- app_assoc. reflexivity.
    + destruct (He _ (settling_sent (sent (ui w)) (inputText (ui w))))
        as [-> ->]; auto.
    + destruct (He _ (settling_sent (sent (ui w)) (inputText (ui w))))
        as [-> ->]; auto.
    + destruct (He _ (settling_sent (sent (ui w)) (inputText (ui w))))
        as [-> ->]; auto.
Qed.

Lemma map_fst_sends input es : List.map fst (sends input es) = clicks es.
Proof.
  revert input. induction es as [|[v|now|i a|i v|i o] es IH]; intros input; cbn;
    auto. f_equal. apply IH.
Qed.

(** X6. The message list is the record of the accepted sends, in order: each
    message has the clock value of its click as [id] and, as [text], what the
    textarea held at that click, that is the last text typed since the send
    before.  No other event adds, removes, reorders or rewrites a message. *)
Theorem messages_record_the_sends (fault_message : fault -> jsstring)
    (es : list ui_event) (w : World) :
  reachable_by fault_message es w ->
  List.map (fun m => (id m, text m)) (messages (ui w)) = sends (js "") es.
Proof.
  intros Hreach.
  apply (sent_sends fault_message es initial_world w); [| |exact Hreach].
  - intros m [].
  - constructor.
Qed.

Lemma messages_record_the_sends_witness :
  exists w, reachable_by v8_fault_message twin_events w
    /\ List.map (fun m => (id m, text m)) (messages (ui w))
       = [ (1700000000000, js "first"); (1700000000000, js "second") ].
Proof.
  eexists. split; [reflexivity|].
  exact (messages_record_the_sends v8_fault_message twin_events _ eq_refl).
Defined.

(** X7. When the send clicks read pairwise different clock values, the
    messages have pairwise different ids. *)
Theorem distinct_clock_distinct_ids (fault_message : fault -> jsstring)
    (es : list ui_event) (w : World) :
  reachable_by fault_message es w ->
  NoDup (clicks es) ->
  NoDup (List.map id (messages (ui w))).
Proof.
  intros Hreach Hclock.
  assert (Hsent : sent (ui w) = sends (js "") es).
  { apply (sent_sends fault_message es initial_world w); [| |exact Hreach].
    - intros m [].
    - constructor. }
  assert (Hids : List.map id (messages (ui w)) = clicks es).
  { rewrite <- (map_fst_sends (js "") es), <- Hsent.
    unfold sent. rewrite map_map. reflexivity. }
  rewrite Hids. exact Hclock.
Qed.

Lemma distinct_clock_distinct_ids_witness :
  let es := [ input_change (js "first"); send_click 1700000000000;
              input_change (js "second"); send_click 1700000000001 ] in
  exists w, reachable_by v8_fault_message es w
    /\ NoDup (clicks es)
    /\ NoDup (List.map id (messages (ui w))).
Proof.
  intros es.
  assert (Hclock : NoDup (clicks es)).
  { apply (bool_decide_unpack _). vm_compute. exact I. }
  eexists. split; [reflexivity|]. split; [exact Hclock|].
  exact (distinct_clock_distinct_ids v8_fault_message es _ eq_refl Hclock).
Defined.

(** ** Messages are kept *)






(** ** The send button *)

Lemma trim_truthy_iff input :
  truthy_string (trim input) = true
  <-> exists c, In c input /\ is_white_space c = false.
Proof.
  split.
  - intros Ht.
    assert (Hne : ~ Forall (fun c => is_white_space c = true) input).
    { intros H. apply trim_empty_iff in H. rewrite H in Ht. discriminate. }
    apply neg_Forall_Exists_neg in Hne.
    + apply Exists_exists in Hne as [c [Hc Hw]]. exists c.
      split; [apply list_elem_of_In, Hc|].
      destruct (is_white_space c); congruence.
    + intros c. destruct (is_white_space c); [left|right]; congruence.
  - intros [c [Hc Hw]]. destruct (trim input) eqn:E; [|reflexivity].
    apply trim_empty_iff in E. rewrite Forall_forall in E.
    apply list_elem_of_In in Hc. rewrite (E c Hc) in Hw. discriminate.
Qed.

(** X9. The send button is enabled exactly when the page is not busy and the
    textarea holds a character that is not white space.  A click on it then
    empties the textarea, which disables it: one typed text is sent once. *)
Theorem send_button_gate (fault_message : fault -> jsstring) (w : World) :
  (send_disabled (ui w) = false
   <-> loading (ui w) = false
       /\ exists c, In c (inputText (ui w)) /\ is_white_space c = false)
  /\ forall now w', fire fault_message w (send_click now) = Some w' ->
       inputText (ui w') = js ""
       /\ pending w' = pending w
       /\ forall now', fire fault_message w' (send_click now') = None.
Proof.
  split.
  - unfold send_disabled. rewrite orb_false_iff, negb_false_iff.
    rewrite trim_truthy_iff. reflexivity.
  - intros now w' Hfire. lazy beta iota delta [fire] in Hfire.
    destruct (send_disabled (ui w)) eqn:Hd; [discriminate|].
    injection Hfire as <-. unfold advance. rewrite (exec_send _ _ Hd). cbn.
    rewrite app_nil_r. repeat split.
Qed.

Lemma send_button_gate_witness :
  let w := {| ui := apply_setter (setInputText (js " Hi ")) initial_state;
              pending := [] |} in
  exists w', fire v8_fault_message w (send_click 1700000000000) = Some w'
    /\ send_disabled (ui w) = false
    /\ inputText (ui w') = js ""
    /\ fire v8_fault_message w' (send_click 1700000000001) = None.
Proof.
  intros w. eexists. split; [reflexivity|].
  destruct (send_button_gate v8_fault_message w) as [Hgate Hclick].
  split.
  - apply Hgate. split; [reflexivity|]. exists 72%N. split; [|reflexivity].
    right. left. reflexivity.
  - destruct (Hclick 1700000000000 _ eq_refl) as [Hinput [_ Hagain]].
    split; [exact Hinput | exact (Hagain 1700000000001)].
Defined.

(** ** Which messages an update touches *)

Lemma find_message_NoDup msgs i m :
  NoDup (List.map id msgs) -> msgs !! i = Some m ->
  find_message msgs (id m) = Some m.
Proof.
  unfold find_message. revert i.
  induction msgs as [|a l IH]; intros [|i] Hnd Hi; cbn in *; try discriminate.
  - injection Hi as ->. rewrite Z.eqb_refl. reflexivity.
  - apply NoDup_cons in Hnd as [Ha Hl].
    destruct (id a =? id m) eqn:E; [|eauto].
    exfalso. apply Ha. apply Z.eqb_eq in E. rewrite E.
    apply list_elem_of_In, in_map. apply list_elem_of_In, list_elem_of_lookup. eauto.
Qed.

Lemma map_by_id_NoDup (f : Message -> Message) msgs i m :
  NoDup (List.map id msgs) -> msgs !! i = Some m ->
  List.map (fun msg => if id msg =? id m then f msg else msg) msgs
  = <[i := f m]> msgs.
Proof.
  revert i. induction msgs as [|a l IH]; intros [|i] Hnd Hi; cbn in *;
    try discriminate.
  - injection Hi as ->. rewrite Z.eqb_refl. f_equal.
    apply NoDup_cons in Hnd as [Ha _].
    rewrite <- (map_id l) at 2. apply map_ext_in. intros b Hb.
    destruct (id b =? id m) eqn:E; [|reflexivity].
    exfalso. apply Ha. apply Z.eqb_eq in E. rewrite <- E.
    apply list_elem_of_In, in_map, Hb.
  - apply NoDup_cons in Hnd as [Ha Hl].
    destruct (id a =? id m) eqn:E.
    + exfalso. apply Ha. apply Z.eqb_eq in E. rewrite E.
      apply list_elem_of_In, in_map. apply list_elem_of_In, list_elem_of_lookup. eauto.
    + f_equal. apply IH; assumption.
Qed.

(** X10. With pairwise different ids, a successful translate or summarize of
    the message at a position is given that message's own text and replaces
    that one message: every other position of the list is untouched. *)
Theorem update_touches_one_message (fault_message : fault -> jsstring)
    (o : oracle) (s : State) (i : nat) (m : Message) :
  NoDup (List.map id (messages s)) ->
  messages s !! i = Some m ->
  (forall targetLang translation,
     outcome o (translateText fault_message (text m) targetLang) = inr translation ->
     messages (fst (run o (handleTranslate fault_message (messages s) (id m)
                             targetLang) s))
     = <[i := with_translation m targetLang translation]> (messages s))
  /\ (forall window_ai returned,
        outcome o (summarizeText fault_message window_ai (text m)) = inr returned ->
        messages (fst (run o (handleSummarize fault_message (messages s) window_ai
                                (id m)) s))
        = <[i := with_summary m returned]> (messages s)).
Proof.
  intros Hnd Hi. pose proof (find_message_NoDup _ _ _ Hnd Hi) as Hfind. split.
  - intros targetLang translation Hok.
    rewrite (run_handleTranslate _ _ _ _ _ _ _ Hfind), Hok. cbn.
    apply (map_by_id_NoDup (fun msg => with_translation msg targetLang translation));
      assumption.
  - intros window_ai returned Hok.
    rewrite (run_handleSummarize _ _ _ _ _ _ _ Hfind), Hok. cbn.
    apply (map_by_id_NoDup (fun msg => with_summary msg returned)); assumption.
Qed.

Lemma update_touches_one_message_witness :
  let o := service 200 (inr (JObj [(js "translation", JStr (js "Hola mundo"))])) in
  let other := {| id := 1700000000001; text := js "Bye"; language := None;
                  translations := ∅; summary := None |} in
  let s := {| messages := [hello_message; other]; inputText := js "";
              loading := false; error := None; welcomeMessage := false |} in
  NoDup (List.map id (messages s))
  /\ messages s !! 0%nat = Some hello_message
  /\ outcome o (translateText v8_fault_message (text hello_message) (js "es"))
     = inr (JStr (js "Hola mundo"))
  /\ messages (fst (run o (handleTranslate v8_fault_message (messages s)
                             (id hello_message) (js "es")) s))
     = [with_translation hello_message (js "es") (JStr (js "Hola mundo")); other].
Proof.
  intros o other s.
  assert (Hnd : NoDup (List.map id (messages s)))
    by (apply (bool_decide_unpack _); vm_compute; exact I).
  split; [exact Hnd|]. split; [reflexivity|]. split; [reflexivity|].
  exact (proj1 (update_touches_one_message v8_fault_message o s 0 hello_message
                  Hnd eq_refl) (js "es") (JStr (js "Hola mundo")) eq_refl).
Defined.

(** ** Two translate runs at a time *)

Section Overlap.

Variable fault_message : fault -> jsstring.

(** What is left of a successful translate run after its start, resumed in
    any state, ends by merging its translation into the list of that state. *)
Lemma run_rest_handleTranslate o msgs messageId targetLang m translation s0 s :
  find_message msgs messageId = Some m ->
  outcome o (translateText fault_message (text m) targetLang) = inr translation ->
  run o (snd (exec (handleTranslate fault_message msgs messageId targetLang) s0)) s
  = (translated messageId targetLang translation s, inr tt).
Proof.
  intros Hfind Hok. rewrite outcome_translateText in Hok.
  unfold handleTranslate. rewrite Hfind. unfold translateText. cbn.
  destruct (encodeURIComponent (text m)) as [component|]; [|discriminate]. cbn.
  destruct (o (fetch _)) as [e|[[] st]]; try discriminate. cbn in *.
  destruct (o response_json) as [e|data]; [discriminate|].
  destruct data; try discriminate; injection Hok as <-; reflexivity.
Qed.

Lemma with_translation_commute msg L1 L2 t1 t2 :
  L1 <> L2 ->
  with_translation (with_translation msg L1 t1) L2 t2
  = with_translation (with_translation msg L2 t2) L1 t1.
Proof.
  intros Hne. unfold with_translation. cbn. f_equal.
  apply insert_insert_ne. congruence.
Qed.

End Overlap.

(** X11. Two translate runs started on the same page, both successful, for
    different messages or different languages: whichever settles first, the
    list ends up the same and holds both translations.  A run merges into
    the list as it is when the run settles, not as it was when it started. *)
Theorem overlapping_translates_merge (fault_message : fault -> jsstring)
    (o1 o2 : oracle) (s : State) (id1 id2 : Z) (L1 L2 : jsstring)
    (m1 m2 : Message) (t1 t2 : json) :
  find_message (messages s) id1 = Some m1 ->
  find_message (messages s) id2 = Some m2 ->
  outcome o1 (translateText fault_message (text m1) L1) = inr t1 ->
  outcome o2 (translateText fault_message (text m2) L2) = inr t2 ->
  id1 <> id2 \/ L1 <> L2 ->
  let rest1 := snd (exec (handleTranslate fault_message (messages s) id1 L1) s) in
  let rest2 := snd (exec (handleTranslate fault_message (messages s) id2 L2)
                      (begun s)) in
  let both_begun := begun (begun s) in
  let first_then_second :=
    messages (fst (run o2 rest2 (fst (run o1 rest1 both_begun)))) in
  let second_then_first :=
    messages (fst (run o1 rest1 (fst (run o2 rest2 both_begun)))) in
  first_then_second = second_then_first
  /\ length first_then_second = length (messages s)
  /\ forall msg, In msg first_then_second ->
       (id msg = id1 -> translations msg !! L1 = Some t1)
       /\ (id msg = id2 -> translations msg !! L2 = Some t2).
Proof.
  intros Hf1 Hf2 Hok1 Hok2 Hne. cbn zeta.
  rewrite !(run_rest_handleTranslate _ _ _ _ _ _ _ _ _ Hf1 Hok1).
  rewrite !(run_rest_handleTranslate _ _ _ _ _ _ _ _ _ Hf2 Hok2).
  cbn. rewrite !map_map. split; [|split].
  - apply map_ext. intros msg.
    destruct (id msg =? id1) eqn:E1, (id msg =? id2) eqn:E2; cbn;
      rewrite ?E1, ?E2; try reflexivity.
    apply Z.eqb_eq in E1, E2. destruct Hne as [Hne|Hne]; [congruence|].
    apply with_translation_commute, Hne.
  - apply length_map.
  - intros msg. rewrite in_map_iff. intros [m0 [<- _]].
    destruct (id m0 =? id1) eqn:E1; cbn; rewrite ?E1;
      destruct (id m0 =? id2) eqn:E2; cbn; rewrite ?E1, ?E2.
    + apply Z.eqb_eq in E1, E2. destruct Hne as [Hne|Hne]; [congruence|].
      split; intros _; [|apply lookup_insert_eq].
      rewrite lookup_insert_ne by congruence. apply lookup_insert_eq.
    + apply Z.eqb_neq in E2. split; [intros _; apply lookup_insert_eq|congruence].
    + apply Z.eqb_neq in E1. split; [congruence|intros _; apply lookup_insert_eq].
    + apply Z.eqb_neq in E1. apply Z.eqb_neq in E2. split; congruence.
Qed.

Lemma overlapping_translates_merge_witness :
  let o1 := service 200 (inr (JObj [(js "translation", JStr (js "Hola mundo"))])) in
  let o2 := service 200 (inr (JObj [(js "translation", JStr (js "Bonjour le monde"))])) in
  let h L := handleTranslate v8_fault_message (messages hello_state) 1700000000000 L in
  let rest1 := snd (exec (h (js "es")) hello_state) in
  let rest2 := snd (exec (h (js "fr")) (begun hello_state)) in
  let both_begun := begun (begun hello_state) in
  (1700000000000 <> 1700000000000 \/ js "es" <> js "fr")
  /\ messages (fst (run o2 rest2 (fst (run o1 rest1 both_begun))))
     = messages (fst (run o1 rest1 (fst (run o2 rest2 both_begun))))
  /\ translations <$> messages (fst (run o2 rest2 (fst (run o1 rest1 both_begun))))
     = [ {[ js "es" := JStr (js "Hola mundo");
            js "fr" := JStr (js "Bonjour le monde") ]} ].
Proof.
  intros o1 o2 h rest1 rest2 both_begun.
  assert (Hne : 1700000000000 <> 1700000000000 \/ js "es" <> js "fr")
    by (right; discriminate).
  split; [exact Hne|]. split; [|reflexivity].
  exact (proj1 (overlapping_translates_merge v8_fault_message o1 o2 hello_state
                  1700000000000 1700000000000 (js "es") (js "fr")
                  hello_message hello_message
                  (JStr (js "Hola mundo")) (JStr (js "Bonjour le monde"))
                  eq_refl eq_refl eq_refl eq_refl Hne)).
Defined.

(** ** The address of the translation request *)

Lemma hex_digit_unreserved d : (d < 16)%N -> is_unreserved (hex_digit d) = true.
Proof.
  intros Hd. unfold is_unreserved, hex_digit.
  destruct (N.ltb_spec d 10);
    rewrite !orb_true_iff, !andb_true_iff, !N.leb_le, !N.eqb_eq; lia.
Qed.

Lemma percent_encode_safe octets :
  Forall (fun o => (o < 256)%N) octets ->
  Forall (fun c => is_url_safe c = true) (percent_encode octets).
Proof.
  induction 1 as [|o octets Ho _ IH]; cbn; [constructor|].
  repeat constructor; [| |exact IH]; unfold is_url_safe;
    rewrite hex_digit_unreserved; auto.
  - apply N.Div0.div_lt_upper_bound. exact Ho.
  - apply N.mod_lt. discriminate.
Qed.

Lemma utf8_octets cp :
  (cp < 1114112)%N -> Forall (fun o => (o < 256)%N) (utf8 cp).
Proof.
  intros Hcp. unfold utf8.
  assert (H64 : forall n, (n mod 64 < 64)%N) by (intros n; apply N.mod_lt; discriminate).
  destruct (N.ltb_spec cp 128); [repeat constructor; lia|].
  destruct (N.ltb_spec cp 2048).
  { assert (cp / 64 < 32)%N by (apply N.Div0.div_lt_upper_bound; lia).
    pose proof (H64 cp). repeat constructor; lia. }
  destruct (N.ltb_spec cp 65536).
  { assert (cp / 4096 < 16)%N by (apply N.Div0.div_lt_upper_bound; lia).
    pose proof (H64 cp). pose proof (H64 (cp / 64)%N). repeat constructor; lia. }
  assert (cp / 262144 < 5)%N by (apply N.Div0.div_lt_upper_bound; lia).
  pose proof (H64 cp). pose proof (H64 (cp / 64)%N). pose proof (H64 (cp / 4096)%N).
  repeat constructor; lia.
Qed.

Lemma encodeURIComponent_safe_upto n s component :
  (length s <= n)%nat ->
  Forall (fun c => (c < 65536)%N) s ->
  encodeURIComponent s = Some component ->
  Forall (fun c => is_url_safe c = true) component.
Proof.
  revert s component. induction n as [|n IH]; intros s component Hlen Hs.
  - destruct s; [|cbn in Hlen; lia]. intros [= <-]. constructor.
  - destruct s as [|c rest]; [intros [= <-]; constructor|].
    cbn in Hlen. apply Forall_cons in Hs as [Hc Hrest]. cbn [encodeURIComponent].
    destruct (is_unreserved c) eqn:Hu.
    { destruct (encodeURIComponent rest) as [tail|] eqn:E; [|discriminate].
      intros [= <-]. constructor.
      - unfold is_url_safe. rewrite Hu. reflexivity.
      - apply (IH rest); auto. lia. }
    destruct (is_leading_surrogate c) eqn:Hlead.
    { destruct rest as [|d rest']; [discriminate|].
      destruct (is_trailing_surrogate d) eqn:Htrail; [|discriminate].
      destruct (encodeURIComponent rest') as [tail|] eqn:E; [|discriminate].
      intros [= <-]. apply Forall_app. split.
      - apply percent_encode_safe, utf8_octets.
        unfold is_leading_surrogate, is_trailing_surrogate in *.
        rewrite andb_true_iff, !N.leb_le in Hlead, Htrail. lia.
      - apply Forall_cons in Hrest as [_ Hrest']. apply (IH rest'); auto.
        cbn in Hlen. lia. }
    destruct (is_trailing_surrogate c); [discriminate|].
    destruct (encodeURIComponent rest) as [tail|] eqn:E; [|discriminate].
    intros [= <-]. apply Forall_app. split.
    + apply percent_encode_safe, utf8_octets. lia.
    + apply (IH rest); auto. lia.
Qed.

(** The one [fetch] of a translate call, when there is one. *)
Lemma fetch_of_handleTranslate fault_message o msgs messageId targetLang url :
  In (fetch url) (requests o (handleTranslate fault_message msgs messageId targetLang)) ->
  exists m component,
    find_message msgs messageId = Some m
    /\ encodeURIComponent (text m) = Some component
    /\ url = request_url targetLang component.
Proof.
  unfold handleTranslate, translateText.
  destruct (find_message msgs messageId) as [m|]; cbn; [|tauto].
  destruct (encodeURIComponent (text m)) as [component|] eqn:Henc; cbn; [|tauto].
  intros [Hurl|Hin].
  - inversion Hurl. exists m, component. auto.
  - exfalso. destruct (o (fetch _)) as [e|[[] st]]; cbn in Hin; auto.
    destruct Hin as [Hin|Hin]; [discriminate|].
    destruct (o response_json) as [e|[]]; cbn in Hin; auto.
Qed.

Lemma find_message_some_In msgs messageId m :
  find_message msgs messageId = Some m -> In m msgs.
Proof. unfold find_message. intros H. apply find_some in H. tauto. Qed.

(** X12. The text of a message reaches the request address only as unreserved
    characters and percent escapes: whatever the text, it cannot add a path
    separator, a query or a fragment to the address. *)
Theorem request_text_is_escaped (fault_message : fault -> jsstring) (o : oracle)
    (msgs : list Message) (messageId : Z) (targetLang url : jsstring) :
  (forall m, In m msgs -> Forall (fun c => (c < 65536)%N) (text m)) ->
  In (fetch url) (requests o (handleTranslate fault_message msgs messageId targetLang)) ->
  exists component,
    url = js "https://lingva.ml/api/v1/en/" ++ targetLang ++ js "/" ++ component
    /\ Forall (fun c => is_url_safe c = true) component
    /\ ~ In 47%N component /\ ~ In 63%N component /\ ~ In 35%N component.
Proof.
  intros Hunits Hin.
  destruct (fetch_of_handleTranslate _ _ _ _ _ _ Hin) as [m [component [Hf [He ->]]]].
  exists component. split; [reflexivity|].
  assert (Hsafe : Forall (fun c => is_url_safe c = true) component).
  { apply (encodeURIComponent_safe_upto (length (text m)) (text m)); auto.
    apply Hunits. exact (find_message_some_In _ _ _ Hf). }
  split; [exact Hsafe|]. rewrite Forall_forall in Hsafe.
  repeat split; intros H; apply list_elem_of_In in H;
    specialize (Hsafe _ H); discriminate.
Qed.

Lemma request_text_is_escaped_witness :
  let o := service 200 (inr (JObj [(js "translation", JStr (js "x"))])) in
  let sly := {| id := 7; text := js "a/b?c#d e"; language := None;
                translations := ∅; summary := None |} in
  let url := js "https://lingva.ml/api/v1/en/es/a%2Fb%3Fc%23d%20e" in
  (forall m, In m [sly] -> Forall (fun c => (c < 65536)%N) (text m))
  /\ In (fetch url) (requests o (handleTranslate v8_fault_message [sly] 7 (js "es")))
  /\ exists component,
       url = js "https://lingva.ml/api/v1/en/" ++ js "es" ++ js "/" ++ component
       /\ Forall (fun c => is_url_safe c = true) component
       /\ ~ In 47%N component /\ ~ In 63%N component /\ ~ In 35%N component.
Proof.
  intros o sly url.
  assert (Hunits : forall m, In m [sly] -> Forall (fun c => (c < 65536)%N) (text m)).
  { intros m [<-|[]]. cbn. repeat constructor. }
  assert (Hin : In (fetch url)
            (requests o (handleTranslate v8_fault_message [sly] 7 (js "es"))))
    by (left; reflexivity).
  split; [exact Hunits|]. split; [exact Hin|].
  exact (request_text_is_escaped v8_fault_message o [sly] 7 (js "es") url Hunits Hin).
Defined.

(** ** What a call awaits *)

(** X13. A translate call makes at most one request, never a second try, and
    reads the body of the response exactly when its status is a success: it
    awaits nothing, or one [fetch] whose response did not come or is not ok,
    or one [fetch] with an ok response and then the body. *)
Theorem translate_awaits (fault_message : fault -> jsstring) (o : oracle)
    (msgs : list Message) (messageId : Z) (targetLang : jsstring) :
  let awaited := requests o (handleTranslate fault_message msgs messageId targetLang) in
  awaited = []
  \/ exists url,
       (awaited = [fetch url]
        /\ forall response, o (fetch url) = inr response -> ok response = false)
       \/ (awaited = [fetch url; response_json]
           /\ exists response, o (fetch url) = inr response /\ ok response = true).
Proof.
  cbn zeta. unfold handleTranslate, translateText.
  destruct (find_message msgs messageId) as [m|]; cbn; [|auto].
  destruct (encodeURIComponent (text m)) as [component|]; cbn; [|auto].
  right. exists (request_url targetLang component).
  destruct (o (fetch _)) as [e|[[] st]] eqn:Hf; cbn.
  - left. split; [reflexivity|]. discriminate.
  - right. split; [|eauto]. destruct (o response_json) as [e|[]]; reflexivity.
  - left. split; [reflexivity|]. intros response [= <-]. reflexivity.
Qed.



(** ** The keys of the translations, as the page has them *)

Lemma language_name_configured k :
  In k language_codes -> is_Some (language_name k).
Proof.
  intros H. repeat (destruct H as [<-|H]; [eexists; reflexivity|]). destruct H.
Qed.

(** X15. On every page the events can lead to, the keys of a message's
    translations are values of the select: one of the six codes, for which
    the entry's heading is the language's name, or the empty string of the
    placeholder, for which there is no heading. *)
Theorem translation_keys_are_select_values (fault_message : fault -> jsstring)
    (es : list ui_event) (w : World) :
  reachable_by fault_message es w ->
  forall m k, In m (messages (ui w)) -> is_Some (translations m !! k) ->
    In k select_values
    /\ (k <> js "" -> is_Some (language_name k))
    /\ (k = js "" -> language_name k = None).
Proof.
  intros Hreach m k Hm Hk.
  assert (Hsel : In k select_values).
  { revert m Hm k Hk.
    change (every_message
              (fun m => forall k, is_Some (translations m !! k) -> In k select_values)
              (ui w)).
    revert es w Hreach. apply (reachable_invariant fault_message).
    - intros m [].
    - intros v s Hs. exact Hs.
    - intros s now Hs _ m. cbn. rewrite in_app_iff. cbn.
      intros [Hm|[<-|[]]]; [exact (Hs m Hm)|]. cbn [translations]. intros k [v Hv].
      rewrite lookup_empty in Hv. discriminate.
    - intros s Hs _. exact Hs.
    - split.
      + intros s Hs. exact Hs.
      + intros s messageId targetLang translation Hs Hin _ m. cbn.
        rewrite in_map_iff. intros [m0 [<- Hm0]].
        destruct (id m0 =? messageId); cbn [translations with_translation];
          [|exact (Hs m0 Hm0)].
        intros k. destruct (decide (targetLang = k)) as [<-|Hne]; [auto|].
        rewrite lookup_insert_ne by exact Hne. apply (Hs m0 Hm0). }
  split; [exact Hsel|]. split.
  - intros Hne. destruct Hsel as [He|Hcode]; [congruence|].
    apply language_name_configured, Hcode.
  - intros ->. reflexivity.
Qed.

Lemma translation_keys_are_select_values_witness :
  exists w m,
    reachable_by v8_fault_message placeholder_events w
    /\ In m (messages (ui w))
    /\ is_Some (translations m !! js "") /\ language_name (js "") = None
    /\ is_Some (translations m !! js "es")
    /\ language_name (js "es") = Some (js "Spanish").
Proof.
  eexists. eexists. split; [reflexivity|]. split; [left; reflexivity|].
  pose proof (translation_keys_are_select_values v8_fault_message
                placeholder_events _ eq_refl) as H.
  assert (H1 : is_Some (translations
                 (with_translation
                    (with_translation hello_message (js "es") (JStr (js "Hola mundo")))
                    (js "") (JStr (js "Hola mundo"))) !! js ""))
    by (eexists; reflexivity).
  split; [exact H1|].
  split; [exact (proj2 (proj2 (H _ (js "") (or_introl eq_refl) H1)) eq_refl)|].
  split; [eexists; reflexivity|]. reflexivity.
Defined.

(** ** A busy page becomes idle *)

Section Progress.

Variable fault_message : fault -> jsstring.

Lemma awaits_at_most_exec {A} n (p : prog A) s :
  awaits_at_most n p -> awaits_at_most n (snd (exec p s)).
Proof.
  revert s. induction p as [a|e|u k IH|r k IH]; intros s Hp; cbn in *; auto.
Qed.

Lemma awaits_at_most_more {A} n n' (p : prog A) :
  (n <= n')%nat -> awaits_at_most n p -> awaits_at_most n' p.
Proof.
  revert n n'. induction p as [a|e|u k IH|r k IH]; intros n n' Hn; cbn; eauto.
  destruct n as [|n]; [tauto|]. destruct n' as [|n']; [lia|].
  intros H x. apply (IH x n n'); [lia|]. apply H.
Qed.

Lemma handleTranslate_awaits msgs messageId targetLang :
  awaits_at_most 2 (handleTranslate fault_message msgs messageId targetLang).
Proof.
  unfold handleTranslate, translateText.
  destruct (find_message msgs messageId) as [m|]; cbn; [|exact I].
  destruct (encodeURIComponent (text m)); cbn; [|exact I].
  intros [e|[[] st]]; cbn; try exact I.
  intros [e|[]]; exact I.
Qed.

Lemma handleSummarize_awaits msgs window_ai messageId :
  awaits_at_most 2 (handleSummarize fault_message msgs window_ai messageId).
Proof.
  unfold handleSummarize, summarizeText.
  destruct (find_message msgs messageId) as [m|]; cbn; [|exact I].
  destruct window_ai; cbn; [|exact I].
  intros [e|[|[]]]; cbn; try exact I.
  intros [e|summary]; exact I.
Qed.

Lemma advance_awaits n p s :
  awaits_at_most n p -> Forall (awaits_at_most n) (pending (advance p s [])).
Proof.
  intros Hp. unfold advance.
  pose proof (awaits_at_most_exec n p s Hp) as Hrest.
  destruct (exec p s) as [s' p']. cbn in *.
  destruct p'; cbn; auto.
Qed.

(** The runs suspended on a page reached by the events are at most two
    answers away from their end. *)
Lemma fire_all_awaits es w w' :
  busy_iff_pending w ->
  Forall (awaits_at_most 2) (pending w) ->
  fire_all fault_message w es = Some w' ->
  Forall (awaits_at_most 2) (pending w').
Proof.
  revert w. induction es as [|e es IH]; intros w Hbusy Hw; cbn [fire_all].
  - intros [= <-]. exact Hw.
  - destruct (fire fault_message w e) as [w1|] eqn:Hfire; [|discriminate].
    apply IH; [exact (fire_busy _ _ _ _ Hbusy Hfire)|].
    assert (Hidle : loading (ui w) = false -> pending w = []).
    { intros Hl. destruct Hbusy as [[Hp _]|[p [_ [_ [Ht _]]]]]; [exact Hp|congruence]. }
    destruct e as [v|now|i window_ai|i value|i o];
      lazy beta iota delta [fire] in Hfire.
    + injection Hfire as <-. exact Hw.
    + destruct (send_disabled (ui w)) eqn:Hd; [discriminate|].
      injection Hfire as <-. unfold advance. rewrite (exec_send _ _ Hd). cbn.
      rewrite app_nil_r. exact Hw.
    + destruct (messages (ui w) !! i) as [m|]; [|discriminate].
      destruct (loading (ui w)) eqn:Hl;
        [rewrite andb_false_r in Hfire; discriminate|].
      destruct (summarize_offered m); [|discriminate]. injection Hfire as <-.
      rewrite (Hidle eq_refl). apply advance_awaits, handleSummarize_awaits.
    + destruct (messages (ui w) !! i) as [m|]; [|discriminate].
      destruct (loading (ui w)) eqn:Hl;
        [rewrite andb_false_r in Hfire; discriminate|].
      destruct (bool_decide _); [|discriminate]. injection Hfire as <-.
      rewrite (Hidle eq_refl). apply advance_awaits, handleTranslate_awaits.
    + destruct (pending w !! i) as [[a|e|u k|r k]|] eqn:Hi; try discriminate.
      injection Hfire as <-.
      destruct Hbusy as [[Hp _]|[p [Hp _]]]; rewrite Hp in Hi; [discriminate|].
      destruct i as [|i]; [|discriminate]. injection Hi as ->.
      rewrite Hp in *. cbn [delete list_delete].
      apply Forall_cons in Hw as [Hk _]. cbn in Hk.
      apply advance_awaits. apply (awaits_at_most_more 1); [lia|]. apply Hk.
Qed.

Lemma reachable_progress es w :
  reachable_by fault_message es w ->
  busy_iff_pending w /\ Forall (awaits_at_most 2) (pending w).
Proof.
  intros Hreach.
  assert (Hb : busy_iff_pending initial_world) by (left; split; reflexivity).
  split.
  - exact (fire_all_busy fault_message es _ _ Hb Hreach).
  - apply (fire_all_awaits es initial_world); auto.
Qed.

End Progress.

(** X16. A busy page is at most two answers away from being idle: whatever
    the collaborators answer, the suspended run accepts the answer, and after
    the first or the second one [loading] is false and nothing is suspended.
    (Only an answer that never comes keeps the page busy.) *)
Theorem busy_page_becomes_idle (fault_message : fault -> jsstring)
    (es : list ui_event) (w : World) (o1 o2 : oracle) :
  reachable_by fault_message es w ->
  loading (ui w) = true ->
  exists w1, fire fault_message w (promise_settles 0 o1) = Some w1
    /\ ((loading (ui w1) = false /\ pending w1 = [])
        \/ exists w2, fire fault_message w1 (promise_settles 0 o2) = Some w2
             /\ loading (ui w2) = false /\ pending w2 = []).
Proof.
  intros Hreach Hl.
  destruct (reachable_progress fault_message es w Hreach) as [Hbusy Hdepth].
  destruct Hbusy as [[_ Hidle]|[p [Hp [Hsusp [_ Hb]]]]]; [congruence|].
  destruct p as [a|e|u k|r k]; try discriminate.
  rewrite Hp in Hdepth. apply Forall_cons in Hdepth as [Hk _]. cbn in Hk.
  assert (Hfire : fire fault_message w (promise_settles 0 o1)
                  = Some (advance (k (o1 r)) (ui w) [])).
  { lazy beta iota delta [fire]. rewrite Hp. reflexivity. }
  eexists. split; [exact Hfire|].
  assert (Hbusy1 : busy_iff_pending (advance (k (o1 r)) (ui w) [])).
  { apply (fire_busy fault_message w (promise_settles 0 o1)); [|exact Hfire].
    right. exists (Await r k). rewrite Hp. auto. }
  pose proof (advance_awaits 1 (k (o1 r)) (ui w) (Hk (o1 r))) as Hdepth1.
  set (w1 := advance (k (o1 r)) (ui w) []) in *.
  destruct Hbusy1 as [[Hp1 Hl1]|[p1 [Hp1 [Hsusp1 [Hl1 Hb1]]]]]; [left; auto|].
  right. destruct p1 as [a|e|u k1|r1 k1]; try discriminate.
  rewrite Hp1 in Hdepth1. apply Forall_cons in Hdepth1 as [Hk1 _]. cbn in Hk1.
  assert (Hfire1 : fire fault_message w1 (promise_settles 0 o2)
                   = Some (advance (k1 (o2 r1)) (ui w1) [])).
  { lazy beta iota delta [fire]. rewrite Hp1. reflexivity. }
  eexists. split; [exact Hfire1|].
  assert (Hbusy2 : busy_iff_pending (advance (k1 (o2 r1)) (ui w1) [])).
  { apply (fire_busy fault_message w1 (promise_settles 0 o2)); [|exact Hfire1].
    right. exists (Await r1 k1). rewrite Hp1. auto. }
  pose proof (advance_awaits 0 (k1 (o2 r1)) (ui w1) (Hk1 (o2 r1))) as Hdepth2.
  destruct Hbusy2 as [[Hp2 Hl2]|[p2 [Hp2 [Hsusp2 _]]]]; [auto|].
  rewrite Hp2 in Hdepth2. apply Forall_cons in Hdepth2 as [Hk2 _].
  destruct p2; try discriminate. destruct Hk2.
Qed.

Lemma busy_page_becomes_idle_witness :
  let es := [ input_change (js "Hello world"); send_click 1700000000000;
              language_select 0 (js "es") ] in
  let o := service 200 (inr (JObj [(js "translation", JStr (js "Hola mundo"))])) in
  exists w w1,
    reachable_by v8_fault_message es w
    /\ loading (ui w) = true
    /\ fire v8_fault_message w (promise_settles 0 o) = Some w1
    /\ ((loading (ui w1) = false /\ pending w1 = [])
        \/ exists w2, fire v8_fault_message w1 (promise_settles 0 o) = Some w2
             /\ loading (ui w2) = false /\ pending w2 = []).
Proof.
  intros es o. eexists.
  destruct (busy_page_becomes_idle v8_fault_message es _ o o eq_refl eq_refl)
    as [w1 [Hfire Hidle]].
  exists w1. split; [reflexivity|]. split; [reflexivity|].
  split; [exact Hfire | exact Hidle].
Defined.


(** ** What a translation leaves alone *)




(** ** The translation that is stored *)

(** X18. When the service answers a translate call with a success status and
    a JSON object whose [translation] is truthy, exactly that value is stored
    under the target code on the messages with the given id, [error] stays
    cleared and [loading] ends false. *)
Theorem translate_stores_the_answer (fault_message : fault -> jsstring)
    (o : oracle) (s : State) (messageId : Z) (targetLang : jsstring)
    (m : Message) (component : jsstring) (response : Response)
    (members : list (jsstring * json)) (translation : json) :
  find_message (messages s) messageId = Some m ->
  encodeURIComponent (text m) = Some component ->
  o (fetch (request_url targetLang component)) = inr response ->
  ok response = true ->
  o response_json = inr (JObj members) ->
  member (js "translation") members = Some translation ->
  truthy translation = true ->
  let s' := fst (run o (handleTranslate fault_message (messages s) messageId targetLang) s) in
  messages s' =
    List.map (fun msg =>
      if id msg =? messageId
      then with_translation msg targetLang translation
      else msg) (messages s)
  /\ (forall i msg, messages s !! i = Some msg -> id msg = messageId ->
        exists msg', messages s' !! i = Some msg'
          /\ translations msg' !! targetLang = Some translation)
  /\ error s' = None /\ loading s' = false.
Proof.
  intros Hfind Henc Hfetch Hok Hbody Hmember Htruthy. cbn zeta.
  rewrite (run_handleTranslate _ _ _ _ _ _ _ Hfind), outcome_translateText.
  rewrite Henc, Hfetch, Hok, Hbody. cbn. rewrite Hmember, Htruthy. cbn.
  repeat split.
  intros i msg Hi Hid. rewrite lookup_map, Hi. cbn.
  apply Z.eqb_eq in Hid. rewrite Hid.
  eexists. split; [reflexivity|]. apply lookup_insert_eq.
Qed.

Lemma translate_stores_the_answer_witness :
  let body := [(js "translation", JStr (js "Hola mundo")); (js "info", JNull)] in
  let o := service 200 (inr (JObj body)) in
  let s' := fst (run o (handleTranslate v8_fault_message (messages hello_state)
                          1700000000000 (js "es")) hello_state) in
  find_message (messages hello_state) 1700000000000 = Some hello_message
  /\ encodeURIComponent (text hello_message) = Some (js "Hello%20world")
  /\ o (fetch (request_url (js "es") (js "Hello%20world")))
     = inr {| ok := true; status := 200 |}
  /\ o response_json = inr (JObj body)
  /\ member (js "translation") body = Some (JStr (js "Hola mundo"))
  /\ truthy (JStr (js "Hola mundo")) = true
  /\ messages s' = [with_translation hello_message (js "es") (JStr (js "Hola mundo"))]
  /\ error s' = None.
Proof.
  intros body o s'.
  destruct (translate_stores_the_answer v8_fault_message o hello_state
              1700000000000 (js "es") hello_message (js "Hello%20world")
              {| ok := true; status := 200 |} body (JStr (js "Hola mundo"))
              eq_refl eq_refl eq_refl eq_refl eq_refl eq_refl eq_refl)
    as [Hm [_ [He _]]].
  split; [reflexivity|]. split; [reflexivity|]. split; [reflexivity|].
  split; [reflexivity|]. split; [reflexivity|]. split; [reflexivity|].
  split; [exact Hm | exact He].
Defined.

(** ** When a call fails *)

(** X19. A translate call on an existing message ends with the error
    "Translation failed." exactly when the text has an unpaired surrogate, or
    the request fails, or the status is not a success, or the body is not
    JSON, or the body is [null]; in every other case it ends with no error. *)
Theorem translate_fails_exactly_when (fault_message : fault -> jsstring)
    (o : oracle) (s : State) (messageId : Z) (targetLang : jsstring) (m : Message) :
  find_message (messages s) messageId = Some m ->
  let s' := fst (run o (handleTranslate fault_message (messages s) messageId targetLang) s) in
  (error s' = Some (js "Translation failed.")
   <-> encodeURIComponent (text m) = None
       \/ exists component, encodeURIComponent (text m) = Some component
            /\ ((exists e, o (fetch (request_url targetLang component)) = inl e)
                \/ exists response,
                     o (fetch (request_url targetLang component)) = inr response
                     /\ (ok response = false
                         \/ (exists e, o response_json = inl e)
                         \/ o response_json = inr JNull)))
  /\ (error s' = None \/ error s' = Some (js "Translation failed.")).
Proof.
  intros Hfind. cbn zeta. rewrite (run_handleTranslate _ _ _ _ _ _ _ Hfind).
  rewrite <- (translateText_rejects_iff fault_message).
  destruct (outcome o (translateText fault_message (text m) targetLang))
    as [e|translation] eqn:E; cbn.
  - apply translateText_rejection in E as ->. cbn. split; [|auto].
    split; eauto.
  - split; [|auto]. split; [discriminate|]. intros [e He]. discriminate.
Qed.

Lemma translate_fails_exactly_when_witness :
  let o := service 404 (inr (JObj [(js "error", JStr (js "Not Found"))])) in
  let s' := fst (run o (handleTranslate v8_fault_message (messages hello_state)
                          1700000000000 (js "")) hello_state) in
  find_message (messages hello_state) 1700000000000 = Some hello_message
  /\ o (fetch (request_url (js "") (js "Hello%20world")))
     = inr {| ok := false; status := 404 |}
  /\ error s' = Some (js "Translation failed.").
Proof.
  intros o s'. split; [reflexivity|]. split; [reflexivity|].
  apply (proj1 (translate_fails_exactly_when v8_fault_message o hello_state
                  1700000000000 (js "") hello_message eq_refl)).
  right. exists (js "Hello%20world"). split; [reflexivity|].
  right. exists {| ok := false; status := 404 |}. split; [reflexivity|].
  left. reflexivity.
Defined.

(** X20. A summarize call on an existing message ends with the error
    "Summarization failed" exactly when [window.ai] has no summarizer, or
    creating one fails or gives nothing with a [summarize] method, or
    [summarize] itself fails; in every other case it ends with no error. *)
Theorem summarize_fails_exactly_when (fault_message : fault -> jsstring)
    (o : oracle) (s : State) (window_ai : bool) (messageId : Z) (m : Message) :
  find_message (messages s) messageId = Some m ->
  let s' := fst (run o (handleSummarize fault_message (messages s) window_ai messageId) s) in
  (error s' = Some (js "Summarization failed")
   <-> window_ai = false
       \/ (exists e, o summarizer_create = inl e)
       \/ o summarizer_create = inr no_instance
       \/ o summarizer_create = inr (instance false)
       \/ (exists e, o (summarizer_summarize (text m)) = inl e))
  /\ (error s' = None \/ error s' = Some (js "Summarization failed")).
Proof.
  intros Hfind. cbn zeta. rewrite (run_handleSummarize _ _ _ _ _ _ _ Hfind).
  rewrite <- (summarizeText_rejects_iff fault_message).
  destruct (outcome o (summarizeText fault_message window_ai (text m)))
    as [e|returned] eqn:E; cbn.
  - apply summarizeText_rejection in E as ->. cbn. split; [|auto].
    split; eauto.
  - split; [|auto]. split; [discriminate|]. intros [e He]. discriminate.
Qed.

Lemma summarize_fails_exactly_when_witness :
  let o := fun r : request =>
    match r return exn + answer r with
    | summarizer_create => inr (instance false)
    | summarizer_summarize _ => inr (js "never asked")
    | fetch _ => inl (Error (js "offline"))
    | response_json => inl (Error (js "offline"))
    end in
  let s' := fst (run o (handleSummarize v8_fault_message (messages hello_state)
                          true 1700000000000) hello_state) in
  find_message (messages hello_state) 1700000000000 = Some hello_message
  /\ o summarizer_create = inr (instance false)
  /\ error s' = Some (js "Summarization failed").
Proof.
  intros o s'. split; [reflexivity|]. split; [reflexivity|].
  apply (proj1 (summarize_fails_exactly_when v8_fault_message o hello_state true
                  1700000000000 hello_message eq_refl)).
  right. right. right. left. reflexivity.
Defined.
